(** * Juju GUI server utilities ([guiserver/utils.py])

    A shallow embedding of the string helpers of the GUI server:
    [get_juju_api_url], [json_decode_dict] and [ws_to_http].

    Python 2 [str] values are byte strings: they are lists of [ascii]
    here.  A call either returns a value or raises an exception; the
    library routines the helpers rely on ([str.replace], [re.search],
    [str.format], [urlparse.urlsplit]) are embedded for the part of their
    input language that is described next to each definition, and answer
    [Unsupported] outside of it, so that no statement below silently
    depends on behaviour that is not modelled. *)

From Stdlib Require Import List Bool Arith Lia Ascii String.
Import ListNotations.

Local Open Scope string_scope.
Local Open Scope list_scope.

(** ** Strings and outcomes *)

Definition str := list ascii.

Coercion list_ascii_of_string : string >-> list.

(** Exceptions the helpers can let escape. *)
Inductive exn :=
| ReError                (* sre_constants.error: the pattern does not compile *)
| KeyError (key : str)
| IndexError
| ValueError.

Inductive result (A : Type) :=
| Val (a : A)
| Raised (e : exn)
| Unsupported.

Arguments Val {A} a.
Arguments Raised {A} e.
Arguments Unsupported {A}.

Definition bind {A B} (r : result A) (k : A -> result B) : result B :=
  match r with
  | Val a => k a
  | Raised e => Raised e
  | Unsupported => Unsupported
  end.

Definition rmap {A B} (f : A -> B) (r : result A) : result B :=
  bind r (fun a => Val (f a)).

Notation "x <- r ;; k" := (bind r (fun x => k))
  (at level 61, r at next level, right associativity).

Definition str_eqb (a b : str) : bool :=
  if list_eq_dec ascii_dec a b then true else false.

(** [startswith p s]: [s.startswith(p)]. *)
Fixpoint startswith (p s : str) : bool :=
  match p, s with
  | [], _ => true
  | _ :: _, [] => false
  | a :: p', b :: s' => Ascii.eqb a b && startswith p' s'
  end.

(** [contains sub s]: the Python test [sub in s]. *)
Fixpoint contains (sub s : str) : bool :=
  startswith sub s ||
  match s with
  | [] => false
  | _ :: s' => contains sub s'
  end.

(** ** [str.replace]

    [replace old new s] is [s.replace(old, new)] for a non-empty [old]
    (the only use in the module): occurrences are found from left to right
    and do not overlap.  [skip] counts the characters of a replaced
    occurrence that remain to be dropped. *)
Fixpoint replace_from (old new : str) (skip : nat) (s : str) : str :=
  match s with
  | [] => []
  | c :: s' =>
      match skip with
      | S k => replace_from old new k s'
      | O => if startswith old s
             then new ++ replace_from old new (List.length old - 1) s'
             else c :: replace_from old new 0 s'
      end
  end.

Definition replace (old new s : str) : str := replace_from old new 0 s.

(** ** The matching pattern of [get_juju_api_url] (lines 76-79) *)

Definition server_group : str := "(?P<server>.*)".
Definition port_group : str := "(?P<port>\d+)".
Definition uuid_group : str := "(?P<uuid>.*)".

Definition pattern (source_template : str) : str :=
  replace "$uuid" uuid_group
    (replace "$port" port_group
       (replace "$server" server_group source_template)).

(** ** Regular expressions: the fragment of [re] that is modelled

    The pattern is handed to [re.search] as it is, so whatever the source
    template contains besides the three placeholders is regular-expression
    syntax too.  The fragment covers what the placeholders expand to and
    what deployment templates are made of: ordinary characters, [.], [\d],
    the end anchor [$], the greedy repetitions [*] and [+] of a single
    character matcher, and named groups [(?P<name>...)] that are not nested,
    as they are or made optional by a [?] that follows them.
    Every other construct is answered with [Unsupported]. *)

Inductive atom :=
| ALit (c : ascii)     (* an ordinary character *)
| AAny                 (* [.]: any character but a newline *)
| ADigit.              (* [\d]: a decimal digit *)

Inductive item :=
| IAtom (a : atom)
| IStar (a : atom)     (* greedy [a*] *)
| IPlus (a : atom)     (* greedy [a+] *)
| IEol.                (* [$] *)

Inductive node :=
| NItem (i : item)
| NGroup (name : str) (body : list item)
| NOptGroup (name : str) (body : list item).   (* a group followed by [?] *)

Definition newline : ascii := "010"%char.

(** [SPECIAL_CHARS] of [sre_parse]: every other character is a literal. *)
Definition is_special (c : ascii) : bool :=
  existsb (Ascii.eqb c) (list_ascii_of_string ".\[{()*+?^$|").

Definition is_digit (c : ascii) : bool :=
  existsb (Ascii.eqb c) (list_ascii_of_string "0123456789").

Definition is_ident_char (c : ascii) : bool :=
  existsb (Ascii.eqb c)
    (list_ascii_of_string
       "abcdefghijklmnopqrstuvwxyzABCDEFGHIJKLMNOPQRSTUVWXYZ0123456789_").

(** A group name is an identifier. *)
Definition valid_name (n : str) : bool :=
  match n with
  | [] => false
  | c :: _ => negb (is_digit c) && forallb is_ident_char n
  end.

Inductive token :=
| TChar (c : ascii)
| TDot
| TDigit
| TDollar
| TStar
| TPlus
| TQuest
| TOpen (name : str)
| TClose
| TBad.

(** The lexer; [name] is [Some r] while the name of a group is being read,
    [r] holding the characters read so far in reverse. *)
Fixpoint lex (name : option str) (s : str) : list token :=
  match s with
  | [] => match name with Some _ => [TBad] | None => [] end
  | c :: s' =>
      match name with
      | Some r =>
          if Ascii.eqb c ">" then TOpen (rev r) :: lex None s'
          else lex (Some (c :: r)) s'
      | None =>
          if Ascii.eqb c "\" then
            match s' with
            | d :: s'' => if Ascii.eqb d "d" then TDigit :: lex None s'' else [TBad]
            | [] => [TBad]
            end
          else if Ascii.eqb c "(" then
            match s' with
            | c1 :: c2 :: c3 :: s'' =>
                if Ascii.eqb c1 "?" && Ascii.eqb c2 "P" && Ascii.eqb c3 "<"
                then lex (Some []) s''
                else [TBad]
            | _ => [TBad]
            end
          else if Ascii.eqb c ")" then TClose :: lex None s'
          else if Ascii.eqb c "." then TDot :: lex None s'
          else if Ascii.eqb c "$" then TDollar :: lex None s'
          else if Ascii.eqb c "*" then TStar :: lex None s'
          else if Ascii.eqb c "+" then TPlus :: lex None s'
          else if Ascii.eqb c "?" then TQuest :: lex None s'
          else if is_special c then [TBad]
          else TChar c :: lex None s'
      end
  end.

Definition node_named (n : str) (x : node) : bool :=
  match x with
  | NGroup m _ | NOptGroup m _ => str_eqb n m
  | NItem _ => false
  end.

(** The names of the groups of a list of nodes, in order. *)
Fixpoint node_names (ns : list node) : list str :=
  match ns with
  | [] => []
  | NItem _ :: ns' => node_names ns'
  | NGroup n _ :: ns' | NOptGroup n _ :: ns' => n :: node_names ns'
  end.

(** Append an item to the open group, or to the top level. *)
Definition emit (i : item) (grp : option (str * list item)) (acc : list node)
  : option (str * list item) * list node :=
  match grp with
  | Some (n, rb) => (Some (n, i :: rb), acc)
  | None => (None, NItem i :: acc)
  end.

Definition atom_of_token (t : token) : option atom :=
  match t with
  | TChar c => Some (ALit c)
  | TDot => Some AAny
  | TDigit => Some ADigit
  | _ => None
  end.

(** The parser; [grp] is the open group (name and body so far, reversed),
    [acc] the nodes parsed so far, reversed.  Defining a group name twice is
    an error of [sre_parse] ("redefinition of group name"). *)
Fixpoint parse (grp : option (str * list item)) (acc : list node)
    (ts : list token) : result (list node) :=
  match ts with
  | [] => match grp with None => Val (rev acc) | Some _ => Unsupported end
  | t :: ts' =>
      match t with
      | TBad | TStar | TPlus | TQuest => Unsupported
      | TOpen n =>
          match grp with
          | Some _ => Unsupported
          | None =>
              if negb (valid_name n) then Unsupported
              else if existsb (node_named n) acc then Raised ReError
              else parse (Some (n, [])) acc ts'
          end
      | TClose =>
          match grp with
          | Some (n, rb) =>
              match ts' with
              | TQuest :: ts'' => parse None (NOptGroup n (rev rb) :: acc) ts''
              | _ => parse None (NGroup n (rev rb) :: acc) ts'
              end
          | None => Unsupported
          end
      | TDollar => let (g, a) := emit IEol grp acc in parse g a ts'
      | TChar _ | TDot | TDigit =>
          match atom_of_token t with
          | None => Unsupported
          | Some x =>
              match ts' with
              | TStar :: ts'' => let (g, a) := emit (IStar x) grp acc in parse g a ts''
              | TPlus :: ts'' => let (g, a) := emit (IPlus x) grp acc in parse g a ts''
              | _ => let (g, a) := emit (IAtom x) grp acc in parse g a ts'
              end
          end
      end
  end.

(** [re.compile], without flags. *)
Definition re_compile (p : str) : result (list node) := parse None [] (lex None p).

(** ** The backtracking matcher

    A matcher maps the text still to be read to the list of the texts that
    can remain after it, in the order in which the backtracking engine of
    [re] tries them: the first element is the engine's answer, the following
    ones are what it falls back to when the rest of the pattern fails. *)

Definition atom_ok (a : atom) (c : ascii) : bool :=
  match a with
  | ALit x => Ascii.eqb c x
  | AAny => negb (Ascii.eqb c newline)
  | ADigit => is_digit c
  end.

(** Greedy [a*]: the longest run first, the empty one last. *)
Fixpoint star_runs (a : atom) (s : str) : list str :=
  match s with
  | c :: s' => if atom_ok a c then star_runs a s' ++ [s] else [s]
  | [] => [[]]
  end.

Definition item_runs (i : item) (s : str) : list str :=
  match i with
  | IAtom a =>
      match s with
      | c :: s' => if atom_ok a c then [s'] else []
      | [] => []
      end
  | IStar a => star_runs a s
  | IPlus a =>
      match s with
      | c :: s' => if atom_ok a c then star_runs a s' else []
      | [] => []
      end
  | IEol =>
      (* the end of the string, or just before a newline that ends it *)
      match s with
      | [] => [s]
      | [c] => if Ascii.eqb c newline then [s] else []
      | _ => []
      end
  end.

Fixpoint items_runs (body : list item) (s : str) : list str :=
  match body with
  | [] => [s]
  | i :: body' => flat_map (items_runs body') (item_runs i s)
  end.

(** The texts of the groups that took part in a match, most recent first. *)
Definition captures := list (str * str).

(** What was read between [s] and its suffix [s']. *)
Definition taken (s s' : str) : str := firstn (List.length s - List.length s') s.

Fixpoint nodes_runs (ns : list node) (s : str) (caps : captures)
  : list (str * captures) :=
  match ns with
  | [] => [(s, caps)]
  | NItem i :: ns' => flat_map (fun s' => nodes_runs ns' s' caps) (item_runs i s)
  | NGroup n body :: ns' =>
      flat_map (fun s' => nodes_runs ns' s' ((n, taken s s') :: caps))
               (items_runs body s)
  | NOptGroup n body :: ns' =>
      (* greedy: with the group first, then without it *)
      flat_map (fun s' => nodes_runs ns' s' ((n, taken s s') :: caps))
               (items_runs body s)
      ++ nodes_runs ns' s caps
  end.

(** The match of the pattern at the start of [s], if there is one. *)
Definition match_here (ns : list node) (s : str) : option captures :=
  match nodes_runs ns s [] with
  | (_, caps) :: _ => Some caps
  | [] => None
  end.

(** [re.search]: the match at the leftmost offset that has one; the offsets
    run from the start of the string to its end, the end included. *)
Fixpoint search (ns : list node) (s : str) : option captures :=
  match match_here ns s with
  | Some caps => Some caps
  | None =>
      match s with
      | [] => None
      | _ :: s' => search ns s'
      end
  end.

(** [re.search], as the captures of the match it finds. *)
Definition re_search (p s : str) : result (option captures) :=
  ns <- re_compile p ;; Val (search ns s).

Fixpoint lookup {V : Type} (k : str) (d : list (str * V)) : option V :=
  match d with
  | [] => None
  | (k', v) :: d' => if str_eqb k k' then Some v else lookup k d'
  end.

(** The values of [match.groupdict()]: the text of a group, or [None] for
    a group of the pattern that took no part in the match. *)
Inductive pyval :=
| PStr (s : str)
| PNone.

Definition pydict := list (str * pyval).

(** [match.groupdict()]: every named group of the pattern, with what it
    captured. *)
Definition groupdict (ns : list node) (caps : captures) : pydict :=
  map (fun n => (n, match lookup n caps with Some v => PStr v | None => PNone end))
      (node_names ns).

(** [str(value)], which is how a field without conversion is rendered. *)
Definition pyval_str (v : pyval) : str :=
  match v with
  | PStr s => s
  | PNone => list_ascii_of_string "None"
  end.

(** ** [str.format] with keyword arguments only

    The format string is read from left to right: [{{] and [}}] stand for a
    brace, [{name}] for the keyword argument [name].  A lone brace is a
    [ValueError], an empty field asks for a positional argument and there is
    none ([IndexError]), an unknown name is a [KeyError].  Conversions
    ([!]), format specifications ([:]), attribute and index lookups ([.],
    [[]), nested fields and numeric field names are not modelled.
    [field] is [Some r] inside a field, [r] being its name so far, reversed. *)

Definition is_field_special (c : ascii) : bool :=
  existsb (Ascii.eqb c) (list_ascii_of_string "{!:.[]").

Definition field_value (name : str) (kwargs : pydict) : result str :=
  match name with
  | [] => Raised IndexError
  | _ =>
      if forallb is_digit name then Unsupported
      else match lookup name kwargs with
           | Some v => Val (pyval_str v)
           | None => Raised (KeyError name)
           end
  end.

Fixpoint format_from (field : option str) (kwargs : pydict) (s : str)
  : result str :=
  match s with
  | [] =>
      match field with
      | Some _ => Raised ValueError     (* unmatched '{' in format *)
      | None => Val []
      end
  | c :: s' =>
      match field with
      | Some r =>
          if Ascii.eqb c "}" then
            v <- field_value (rev r) kwargs ;;
            rmap (app v) (format_from None kwargs s')
          else if is_field_special c then Unsupported
          else format_from (Some (c :: r)) kwargs s'
      | None =>
          if Ascii.eqb c "{" then
            match s' with
            | [] => Raised ValueError   (* single '{' *)
            | d :: s'' =>
                if Ascii.eqb d "{"
                then rmap (cons c) (format_from None kwargs s'')
                else format_from (Some []) kwargs s'
            end
          else if Ascii.eqb c "}" then
            match s' with
            | [] => Raised ValueError   (* single '}' *)
            | d :: s'' =>
                if Ascii.eqb d "}"
                then rmap (cons c) (format_from None kwargs s'')
                else Raised ValueError
            end
          else rmap (cons c) (format_from None kwargs s')
      end
  end.

Definition format (template : str) (kwargs : pydict) : result str :=
  format_from None kwargs template.

(** ** [get_juju_api_url] (lines 65-84) *)

Definition get_juju_api_url (path source_template target_template default : str)
  : result str :=
  ns <- re_compile (pattern source_template) ;;
  match search ns path with
  | None => Val default
  | Some caps => format target_template (groupdict ns caps)
  end.

Definition doc_source : str := "/api/$server/$port/$uuid".
Definition doc_target : str := "wss://{server}:{port}/environment/{uuid}/api".

(** ** Templates made of ordinary characters and placeholders

    The deployment templates are sequences of ordinary characters and of the
    three placeholders.  The general statements below range over this family;
    [template_of] is the text of such a template, [pattern_of] the pattern
    the function is expected to derive from it and [nodes_of] its compiled
    form. *)

Inductive tpiece :=
| TLit (c : ascii)
| TServer
| TPort
| TUuid.

Definition tpiece_src (p : tpiece) : str :=
  match p with
  | TLit c => [c]
  | TServer => "$server"
  | TPort => "$port"
  | TUuid => "$uuid"
  end.

Definition tpiece_pat (p : tpiece) : str :=
  match p with
  | TLit c => [c]
  | TServer => server_group
  | TPort => port_group
  | TUuid => uuid_group
  end.

Definition tpiece_node (p : tpiece) : node :=
  match p with
  | TLit c => NItem (IAtom (ALit c))
  | TServer => NGroup "server" [IStar AAny]
  | TPort => NGroup "port" [IPlus ADigit]
  | TUuid => NGroup "uuid" [IStar AAny]
  end.

Definition template_of (ps : list tpiece) : str := flat_map tpiece_src ps.
Definition pattern_of (ps : list tpiece) : str := flat_map tpiece_pat ps.
Definition nodes_of (ps : list tpiece) : list node := map tpiece_node ps.

Definition is_lit (p : tpiece) : bool :=
  match p with TLit _ => true | _ => false end.

Definition tpiece_eqb (p q : tpiece) : bool :=
  match p, q with
  | TLit a, TLit b => Ascii.eqb a b
  | TServer, TServer | TPort, TPort | TUuid, TUuid => true
  | _, _ => false
  end.

Definition count_piece (p : tpiece) (ps : list tpiece) : nat :=
  List.length (filter (tpiece_eqb p) ps).

(** Ordinary characters only between the placeholders, and no placeholder
    twice. *)
Definition plain_template (ps : list tpiece) : bool :=
  forallb (fun p => match p with TLit c => negb (is_special c) | _ => true end) ps
  && Nat.leb (count_piece TServer ps) 1
  && Nat.leb (count_piece TPort ps) 1
  && Nat.leb (count_piece TUuid ps) 1.

Definition doc_pieces : list tpiece :=
  [TLit "/"; TLit "a"; TLit "p"; TLit "i"; TLit "/"; TServer; TLit "/"; TPort;
   TLit "/"; TUuid].

(** ** Occurrences of a text *)

(** [clash old s]: [old] and [s] differ at a position that both have, so
    that [old] is a prefix of no extension of [s]. *)
Fixpoint clash (old s : str) : bool :=
  match old, s with
  | a :: old', b :: s' => negb (Ascii.eqb a b) || clash old' s'
  | _, _ => false
  end.

(** [inert old q]: no occurrence of [old] starts inside [q], whatever
    follows [q]. *)
Fixpoint inert (old q : str) : bool :=
  match q with
  | [] => true
  | _ :: q' => clash old q && inert old q'
  end.

Definition no_dollar (ps : list tpiece) : Prop :=
  forall c, In (TLit c) ps -> c <> "$"%char.

(** ** Tokens and group names of a template *)

Definition tpiece_toks (p : tpiece) : list token :=
  match p with
  | TLit c => [TChar c]
  | TServer => [TOpen "server"; TDot; TStar; TClose]
  | TPort => [TOpen "port"; TDigit; TPlus; TClose]
  | TUuid => [TOpen "uuid"; TDot; TStar; TClose]
  end.

Definition lits_plain (ps : list tpiece) : Prop :=
  forall c, In (TLit c) ps -> is_special c = false.

Definition starts_quantifier (ts : list token) : bool :=
  match ts with
  | TStar :: _ | TPlus :: _ | TQuest :: _ => true
  | _ => false
  end.

Definition group_name (p : tpiece) : option str :=
  match p with
  | TLit _ => None
  | TServer => Some (list_ascii_of_string "server")
  | TPort => Some (list_ascii_of_string "port")
  | TUuid => Some (list_ascii_of_string "uuid")
  end.

(** ** What the matcher computes

    [item_reads i p rest]: the item [i] can read the text [p] when [rest] is
    what follows.  [nodes_read] extends this to a compiled pattern and
    records the text of every group.  The runs of the matcher are exactly
    these readings ([nodes_runs_spec]). *)

Inductive item_reads : item -> str -> str -> Prop :=
| reads_atom a c rest :
    atom_ok a c = true -> item_reads (IAtom a) [c] rest
| reads_star a p rest :
    forallb (atom_ok a) p = true -> item_reads (IStar a) p rest
| reads_plus a p rest :
    p <> [] -> forallb (atom_ok a) p = true -> item_reads (IPlus a) p rest
| reads_eol rest :
    rest = [] \/ rest = [newline] -> item_reads IEol [] rest.

Inductive items_read : list item -> str -> str -> Prop :=
| items_read_nil rest : items_read [] [] rest
| items_read_cons i body p1 p2 rest :
    item_reads i p1 (p2 ++ rest) -> items_read body p2 rest ->
    items_read (i :: body) (p1 ++ p2) rest.

Inductive nodes_read : list node -> str -> str -> captures -> captures -> Prop :=
| nodes_read_nil rest caps : nodes_read [] [] rest caps caps
| nodes_read_item i ns p1 p2 rest caps caps' :
    item_reads i p1 (p2 ++ rest) -> nodes_read ns p2 rest caps caps' ->
    nodes_read (NItem i :: ns) (p1 ++ p2) rest caps caps'
| nodes_read_group n body ns p1 p2 rest caps caps' :
    items_read body p1 (p2 ++ rest) ->
    nodes_read ns p2 rest ((n, p1) :: caps) caps' ->
    nodes_read (NGroup n body :: ns) (p1 ++ p2) rest caps caps'
| nodes_read_opt n body ns p1 p2 rest caps caps' :
    items_read body p1 (p2 ++ rest) ->
    nodes_read ns p2 rest ((n, p1) :: caps) caps' ->
    nodes_read (NOptGroup n body :: ns) (p1 ++ p2) rest caps caps'
| nodes_read_skip n body ns p rest caps caps' :
    nodes_read ns p rest caps caps' ->
    nodes_read (NOptGroup n body :: ns) p rest caps caps'.

Definition lit_node (c : ascii) : node := NItem (IAtom (ALit c)).

(** ** Target templates

    A target template made of brace-free text and of fields [{name}]. *)

Inductive fpiece :=
| FText (c : ascii)
| FField (name : str).

Definition placeholder_token (n : str) : str := "{"%char :: n ++ ["}"%char].

Definition fpiece_src (p : fpiece) : str :=
  match p with
  | FText c => [c]
  | FField n => placeholder_token n
  end.

Definition is_brace (c : ascii) : bool := Ascii.eqb c "{" || Ascii.eqb c "}".

Definition field_name_ok (n : str) : bool :=
  negb (forallb is_digit n)
  && forallb (fun c => negb (is_field_special c) && negb (Ascii.eqb c "}")) n.

Definition fpiece_ok (p : fpiece) : bool :=
  match p with
  | FText c => negb (is_brace c)
  | FField n => field_name_ok n
  end.

Definition captured (caps : captures) (n : str) : bool :=
  match lookup n caps with Some _ => true | None => false end.

(** What a piece of the template becomes. *)
Definition fpiece_out (caps : captures) (p : fpiece) : str :=
  match p with
  | FText c => [c]
  | FField n => match lookup n caps with Some v => v | None => [] end
  end.

Definition target_of (tps : list fpiece) : str := flat_map fpiece_src tps.

(** Every field of the template names a captured group. *)
Definition fields_captured (caps : captures) (tps : list fpiece) : bool :=
  forallb (fun p => match p with FField n => captured caps n | FText _ => true end) tps.

Definition brace_free (s : str) : bool := forallb (fun c => negb (Ascii.eqb c "{")) s.

Definition captures_brace_free (caps : captures) : bool :=
  forallb (fun kv => brace_free (snd kv)) caps.

(** ** The pattern cache of [re]

    [re.search] compiles its pattern through the module-level cache of
    [re]: a pattern already compiled is taken from the cache, a new one is
    compiled and stored, the cache being emptied first when it is full.  A
    pattern that does not compile is not stored.  This cache is the only
    state that [get_juju_api_url] reaches. *)

Definition re_cache := list (str * list node).

Definition MAXCACHE : nat := 100.

Fixpoint cache_get (p : str) (c : re_cache) : option (list node) :=
  match c with
  | [] => None
  | (p', ns) :: c' => if str_eqb p p' then Some ns else cache_get p c'
  end.

Definition re_compile_cached (p : str) (c : re_cache)
  : result (list node) * re_cache :=
  match cache_get p c with
  | Some ns => (Val ns, c)
  | None =>
      match re_compile p with
      | Val ns => (Val ns, (p, ns) :: (if Nat.leb MAXCACHE (List.length c) then [] else c))
      | r => (r, c)
      end
  end.

(** [get_juju_api_url] with the cache threaded through. *)
Definition get_juju_api_url_cached
    (path source_template target_template default : str) (c : re_cache)
  : result str * re_cache :=
  let (r, c') := re_compile_cached (pattern source_template) c in
  (ns <- r ;;
   match search ns path with
   | None => Val default
   | Some caps => format target_template (groupdict ns caps)
   end, c').

(** Every entry of the cache is the compiled form of its pattern. *)
Definition coherent (c : re_cache) : Prop :=
  Forall (fun e => re_compile (fst e) = Val (snd e)) c.

(** ** [json_decode_dict] (lines 98-114)

    [tornado.escape.json_decode] is a parameter: it answers [None] where the
    library raises [ValueError].  The Python [None] the function returns is
    [None] here too.  The warnings are kept, as the log of the call. *)

#[warnings="-register-all"]
Inductive json :=
| JNull
| JBool (b : bool)
| JNumber (digits : str)
| JString (s : str)
| JArray (items : list json)
| JObject (members : list (str * json)).





(** ** [ws_to_http] (lines 145-149)

    [urlparse.urlsplit] is a parameter of [ws_to_http]; [urlsplit] below
    follows the function of CPython 2.7 ([urlparse.py], 2.7.4 and later)
    and is what the examples run with. *)

Record SplitResult := {
  scheme : str;
  netloc : str;
  path : str;
  query : str;
  fragment : str
}.

Definition ws_to_http (split : str -> result SplitResult) (url : str) : result str :=
  parts <- split url ;;
  http <- (if str_eqb (scheme parts) "ws" then Val (list_ascii_of_string "http")
           else if str_eqb (scheme parts) "wss" then Val (list_ascii_of_string "https")
           else Raised (KeyError (scheme parts))) ;;
  Val (http ++ list_ascii_of_string "://" ++ netloc parts ++ path parts).

(** The text before, and after, the first [c] of [s]. *)
Fixpoint before (c : ascii) (s : str) : str :=
  match s with
  | [] => []
  | d :: s' => if Ascii.eqb d c then [] else d :: before c s'
  end.

Fixpoint after (c : ascii) (s : str) : str :=
  match s with
  | [] => []
  | d :: s' => if Ascii.eqb d c then s' else after c s'
  end.

Definition has (c : ascii) (s : str) : bool := existsb (Ascii.eqb c) s.

Definition is_scheme_char (c : ascii) : bool :=
  existsb (Ascii.eqb c)
    (list_ascii_of_string
       "abcdefghijklmnopqrstuvwxyzABCDEFGHIJKLMNOPQRSTUVWXYZ0123456789+-.").

Definition lower (c : ascii) : ascii :=
  let n := nat_of_ascii c in
  if Nat.leb 65 n && Nat.leb n 90 then ascii_of_nat (n + 32) else c.

Definition is_netloc_end (c : ascii) : bool :=
  Ascii.eqb c "/" || Ascii.eqb c "?" || Ascii.eqb c "#".

(** [_splitnetloc]: the domain runs up to the first of [/], [?] and [#]. *)
Fixpoint splitnetloc (s : str) : str * str :=
  match s with
  | [] => ([], [])
  | c :: s' =>
      if is_netloc_end c then ([], s)
      else let (d, r) := splitnetloc s' in (c :: d, r)
  end.

Definition urlsplit (url : str) : result SplitResult :=
  let (sch, url1) :=
    if has ":" url && negb (startswith ":" url) then
      let pre := before ":" url in
      let rest := after ":" url in
      if str_eqb pre "http" then (pre, rest)
      else if forallb is_scheme_char pre
              && (match rest with [] => true | _ => false end
                  || negb (forallb is_digit rest))
           then (map lower pre, rest)
           else ([], url)
    else ([], url) in
  let (loc, url2) :=
    if startswith "//" url1 then splitnetloc (skipn 2 url1) else ([], url1) in
  if xorb (has "[" loc) (has "]" loc) then Raised ValueError
  else
    let (url3, frag) :=
      if has "#" url2 then (before "#" url2, after "#" url2) else (url2, []) in
    let (url4, qry) :=
      if has "?" url3 then (before "?" url3, after "?" url3) else (url3, []) in
    Val {| scheme := sch; netloc := loc; path := url4; query := qry; fragment := frag |}.

(** ** Requests

    What the helpers read of a request: its method, URI, remote address,
    headers and body.  The headers are kept under the names that the
    request object normalises them to, so that [headers.get('Origin')] is a
    lookup. *)

Record request := {
  method : str;
  uri : str;
  remote_ip : str;
  headers : list (str * str);
  body : str
}.

(** ** [get_headers] (lines 52-62) *)

Definition get_headers (split : str -> result SplitResult) (req : request)
    (websocket_url : str) : result (list (str * str)) :=
  match lookup "Origin" (headers req) with
  | Some origin => Val [(list_ascii_of_string "Origin", origin)]
  | None =>
      origin <- ws_to_http split websocket_url ;;
      Val [(list_ascii_of_string "Origin", origin)]
  end.

(** ** [join_url] (lines 87-95) *)

(** [s.lstrip(c)] and [s.rstrip(c)] for a single character [c]. *)
Fixpoint lstrip (c : ascii) (s : str) : str :=
  match s with
  | [] => []
  | d :: s' => if Ascii.eqb d c then lstrip c s' else s
  end.

Definition rstrip (c : ascii) (s : str) : str := rev (lstrip c (rev s)).

Definition join_url (base_url path query : str) : str :=
  let query := match query with [] => [] | _ => "?"%char :: query end in
  rstrip "/" base_url ++ "/"%char :: lstrip "/" path ++ query.

(** ** [request_summary] (lines 117-119) *)

Definition request_summary (req : request) : str :=
  method req ++ list_ascii_of_string " " ++ uri req
  ++ list_ascii_of_string " (" ++ remote_ip req ++ list_ascii_of_string ")".

(** ** [wrap_write_message] (lines 122-142)

    The handler is known to the wrapper through a weak reference: what the
    reference gives is [None] once the handler has been collected.  Of the
    handler, the wrapper reads [connected] and calls [write_message], which
    is recorded in [written].  [tornado.escape.json_encode] is a parameter.
    A call of the wrapped function answers the handler as it is left and
    the warnings logged. *)

Record handler := {
  connected : bool;
  written : list str
}.

Definition write_message (h : handler) (message : str) : handler :=
  {| connected := connected h; written := written h ++ [message] |}.

Inductive discard :=
| DiscardingMessage (data : json).   (* 'discarding message (closed connection): ...' *)

Definition wrap_write_message (json_encode : json -> str)
    (handler_ref : option handler) (data : json)
  : option handler * list discard :=
  match handler_ref with
  | None => (None, [DiscardingMessage data])
  | Some h =>
      if negb (connected h) then (Some h, [DiscardingMessage data])
      else (Some (write_message h (json_encode data)), [])
  end.

(** The wrapped function called on each datum in turn. *)
Fixpoint wrapped_all (json_encode : json -> str) (handler_ref : option handler)
    (ds : list json) : option handler * list discard :=
  match ds with
  | [] => (handler_ref, [])
  | d :: ds' =>
      let (r, w) := wrap_write_message json_encode handler_ref d in
      let (r', w') := wrapped_all json_encode r ds' in
      (r', w ++ w')
  end.

(** ** Braces that stand for themselves in a target template *)

Definition escape_braces (s : str) : str :=
  flat_map (fun c => if is_brace c then [c; c] else [c]) s.

(** No group of the pattern is optional. *)
Definition no_optional (ns : list node) : bool :=
  forallb (fun x => match x with NOptGroup _ _ => false | _ => true end) ns.

(** Every field of the target names a group of the pattern. *)
Definition fields_named (ns : list node) (tps : list fpiece) : bool :=
  forallb (fun p => match p with
                    | FField n => existsb (str_eqb n) (node_names ns)
                    | FText _ => true
                    end) tps.

(** Every field of the target is a key of the keyword arguments. *)
Definition fields_bound (kwargs : pydict) (tps : list fpiece) : bool :=
  forallb (fun p => match p with
                    | FField n => match lookup n kwargs with Some _ => true | None => false end
                    | FText _ => true
                    end) tps.

(** What a piece of the target becomes with the [groupdict] of a match: a
    group that took no part is rendered as [None]. *)
Definition fpiece_render (kwargs : pydict) (p : fpiece) : str :=
  match p with
  | FText c => [c]
  | FField n => match lookup n kwargs with Some v => pyval_str v | None => [] end
  end.

(** Every field of the target names a placeholder of the source. *)
Definition fields_in_template (ps : list tpiece) (tps : list fpiece) : bool :=
  forallb (fun p => match p with
                    | FField n => existsb (str_eqb n) (node_names (nodes_of ps))
                    | FText _ => true
                    end) tps.

Definition lits_ok (ps : list tpiece) : bool :=
  forallb (fun p => match p with TLit c => negb (is_special c) | _ => true end) ps.

(** * Properties *)

(** ** Examples of the docstring and of the specification *)

Example pattern_doc :
  pattern "/api/$server/$port/$uuid"
  = "/api/(?P<server>.*)/(?P<port>\d+)/(?P<uuid>.*)".
Proof. reflexivity. Qed.

Example re_compile_doc :
  re_compile (pattern "/$server:$port$uuid")
  = Val [NItem (IAtom (ALit "/")); NGroup "server" [IStar AAny];
         NItem (IAtom (ALit ":")); NGroup "port" [IPlus ADigit];
         NGroup "uuid" [IStar AAny]].
Proof. reflexivity. Qed.

Example re_compile_redefinition :
  re_compile (pattern "/$server/$server") = Raised ReError.
Proof. reflexivity. Qed.

Example doc_pieces_template : template_of doc_pieces = doc_source.
Proof. reflexivity. Qed.

Example get_juju_api_url_docstring :
  get_juju_api_url "/ws/api/1.2.3.4/17070/uuid" doc_source doc_target ""
  = Val (list_ascii_of_string "wss://1.2.3.4:17070/environment/uuid/api").
Proof. vm_compute. reflexivity. Qed.

Example get_juju_api_url_example1 :
  get_juju_api_url "/api/10.0.0.5/17070/abcd-1234" doc_source doc_target "wss://fallback:17070/api"
  = Val (list_ascii_of_string "wss://10.0.0.5:17070/environment/abcd-1234/api").
Proof. vm_compute. reflexivity. Qed.

Example get_juju_api_url_example2 :
  get_juju_api_url "/legacy/path" doc_source doc_target "wss://fallback:17070/api"
  = Val (list_ascii_of_string "wss://fallback:17070/api").
Proof. vm_compute. reflexivity. Qed.

Example get_juju_api_url_example3 :
  get_juju_api_url "/api/host/notaport/uuid1" doc_source doc_target "wss://fallback:17070/api"
  = Val (list_ascii_of_string "wss://fallback:17070/api").
Proof. vm_compute. reflexivity. Qed.

Example ws_to_http_ws :
  ws_to_http urlsplit "ws://example.com:8080/ws?x=1#top"
  = Val (list_ascii_of_string "http://example.com:8080/ws").
Proof. vm_compute. reflexivity. Qed.

Example ws_to_http_wss :
  ws_to_http urlsplit "WSS://1.2.3.4:17070"
  = Val (list_ascii_of_string "https://1.2.3.4:17070").
Proof. vm_compute. reflexivity. Qed.

Example ws_to_http_other :
  ws_to_http urlsplit "http://example.com/" = Raised (KeyError "http").
Proof. vm_compute. reflexivity. Qed.

(** ** Strings *)

Lemma str_eqb_eq a b : str_eqb a b = true <-> a = b.
Proof. unfold str_eqb. destruct (list_eq_dec ascii_dec a b); split; congruence. Qed.

Lemma str_eqb_refl a : str_eqb a a = true.
Proof. now apply str_eqb_eq. Qed.

Lemma startswith_app p s : startswith p (p ++ s) = true.
Proof.
  induction p as [|a p IH]; simpl; auto.
  now rewrite Ascii.eqb_refl.
Qed.

Lemma startswith_head c sub s : startswith (c :: sub) s = true -> In c s.
Proof.
  destruct s as [|d s]; simpl; [discriminate|].
  intros H. apply andb_prop in H as [H _]. apply Ascii.eqb_eq in H. now left.
Qed.

Lemma contains_head c sub s : contains (c :: sub) s = true -> In c s.
Proof.
  induction s as [|d s IH]; cbn [contains]; intros H.
  - apply orb_prop in H as [H|H]; [now apply startswith_head in H|discriminate].
  - apply orb_prop in H as [H|H]; [now apply startswith_head in H|].
    right. auto.
Qed.

Lemma clash_startswith old s rest :
  clash old s = true -> startswith old (s ++ rest) = false.
Proof.
  revert s; induction old as [|a old IH]; intros [|b s] H; simpl in *; try discriminate.
  destruct (Ascii.eqb a b); simpl in *; auto.
Qed.

(** ** [replace] and the pattern of a template *)

Lemma replace_from_skip old new k : forall s,
  replace_from old new k s = replace_from old new 0 (skipn k s).
Proof.
  induction k as [|k IH]; intros [|c s]; simpl; auto.
Qed.

Lemma replace_hit old new s :
  old <> [] -> replace old new (old ++ s) = new ++ replace old new s.
Proof.
  intros Hne. unfold replace.
  destruct old as [|a old]; [congruence|].
  change ((a :: old) ++ s) with (a :: (old ++ s)).
  cbn [replace_from].
  change (a :: old ++ s) with ((a :: old) ++ s).
  rewrite startswith_app. f_equal.
  rewrite replace_from_skip. f_equal.
  cbn [List.length]. rewrite Nat.sub_succ, Nat.sub_0_r.
  rewrite skipn_app, skipn_all, Nat.sub_diag. reflexivity.
Qed.

Lemma replace_inert old new q rest :
  inert old q = true -> replace old new (q ++ rest) = q ++ replace old new rest.
Proof.
  unfold replace. induction q as [|c q IH]; simpl; intros H; auto.
  apply andb_prop in H as [Hc Hq].
  change (c :: q ++ rest) with ((c :: q) ++ rest).
  rewrite (clash_startswith _ _ rest Hc). f_equal. auto.
Qed.

Lemma replace_absent old new : forall s,
  contains old s = false -> replace old new s = s.
Proof.
  unfold replace. induction s as [|c s IH]; [reflexivity|].
  cbn [contains replace_from]. intros H. apply orb_false_elim in H as [H1 H2].
  rewrite H1. f_equal. auto.
Qed.

(** Replacement piece by piece: every piece is either the text replaced or
    a text that no occurrence overlaps. *)
Lemma replace_pieces old new (f g : tpiece -> str) ps :
  old <> [] ->
  (forall p, In p ps ->
     (f p = old /\ g p = new) \/ (inert old (f p) = true /\ g p = f p)) ->
  replace old new (flat_map f ps) = flat_map g ps.
Proof.
  intros Hne. induction ps as [|p ps IH]; intros H; [reflexivity|].
  cbn [flat_map].
  destruct (H p (or_introl eq_refl)) as [[Hf Hg]|[Hf Hg]]; rewrite Hg.
  - rewrite Hf, replace_hit by assumption. f_equal. apply IH. intros; apply H; now right.
  - rewrite replace_inert by assumption. f_equal. apply IH. intros; apply H; now right.
Qed.

(** The pattern of a template: each placeholder becomes its group and every
    other character is kept where it is. *)
Lemma pattern_template ps :
  no_dollar ps -> pattern (template_of ps) = pattern_of ps.
Proof.
  intros Hd. unfold pattern, template_of, pattern_of.
  set (f1 p := match p with TServer => server_group | _ => tpiece_src p end).
  set (f2 p := match p with TPort => port_group | _ => f1 p end).
  assert (Hlit : forall old' c, c <> "$"%char -> inert ("$"%char :: old') [c] = true).
  { intros old' c Hc. cbn [inert clash].
    replace (Ascii.eqb "$" c) with false by (symmetry; apply Ascii.eqb_neq; congruence).
    reflexivity. }
  rewrite (replace_pieces _ _ tpiece_src f1), (replace_pieces _ _ f1 f2),
    (replace_pieces _ _ f2 tpiece_pat); try discriminate; auto.
  - intros [c| | |] Hin; [right|right|right|left]; try (split; reflexivity).
    split; [apply Hlit; auto | reflexivity].
  - intros [c| | |] Hin; [right|right|left|right]; try (split; reflexivity).
    split; [apply Hlit; auto | reflexivity].
  - intros [c| | |] Hin; [right|left|right|right]; try (split; reflexivity).
    split; [apply Hlit; auto | reflexivity].
Qed.

(** ** Compiling the pattern of a template *)

Lemma plain_template_lits ps : plain_template ps = true -> lits_plain ps.
Proof.
  unfold plain_template. intros H c Hin.
  repeat (apply andb_prop in H as [H _]).
  rewrite forallb_forall in H. specialize (H _ Hin). simpl in H.
  now apply negb_true_iff.
Qed.

Lemma lits_plain_no_dollar ps : lits_plain ps -> no_dollar ps.
Proof. intros H c Hin ->. specialize (H _ Hin). discriminate. Qed.

Lemma lex_ordinary c rest :
  is_special c = false -> lex None (c :: rest) = TChar c :: lex None rest.
Proof.
  intros H. pose proof H as H'. unfold is_special in H'.
  cbn [existsb list_ascii_of_string] in H'.
  repeat (apply orb_false_elim in H' as [? H']).
  cbn [lex]. now repeat match goal with E : Ascii.eqb c _ = false |- _ => rewrite E; clear E end; rewrite ?H.
Qed.

Lemma lex_ordinary_run l rest :
  forallb (fun c => negb (is_special c)) l = true ->
  lex None (l ++ rest) = map TChar l ++ lex None rest.
Proof.
  induction l as [|c l IH]; intros H; [reflexivity|].
  cbn [forallb] in H. apply andb_prop in H as [Hc Hl]. apply negb_true_iff in Hc.
  cbn [app map]. rewrite lex_ordinary by assumption. now rewrite IH.
Qed.

Lemma lex_pattern_of ps :
  lits_plain ps -> lex None (pattern_of ps) = flat_map tpiece_toks ps.
Proof.
  unfold pattern_of. induction ps as [|p ps IH]; intros H; [reflexivity|].
  assert (IH' : lex None (flat_map tpiece_pat ps) = flat_map tpiece_toks ps).
  { apply IH. intros c Hc. apply H. now right. }
  cbn [flat_map]. rewrite <- IH'. destruct p as [c| | |]; try reflexivity.
  apply lex_ordinary. apply H. now left.
Qed.

Lemma parse_ordinary grp acc c ts :
  starts_quantifier ts = false ->
  parse grp acc (TChar c :: ts)
  = parse (fst (emit (IAtom (ALit c)) grp acc)) (snd (emit (IAtom (ALit c)) grp acc)) ts.
Proof.
  intros H. cbn [parse atom_of_token].
  destruct (emit (IAtom (ALit c)) grp acc) as [g a]. cbn [fst snd].
  destruct ts as [|[]]; try reflexivity; discriminate.
Qed.

Lemma parse_ordinary_run l : forall acc ts,
  starts_quantifier ts = false ->
  parse None acc (map TChar l ++ ts) = parse None (rev (map lit_node l) ++ acc) ts.
Proof.
  induction l as [|c l IH]; intros acc ts H; [reflexivity|].
  cbn [map app]. rewrite parse_ordinary.
  - cbn [emit fst snd rev]. rewrite IH by assumption. now rewrite <- app_assoc.
  - destruct l; [assumption|reflexivity].
Qed.

Lemma toks_no_quantifier ps : starts_quantifier (flat_map tpiece_toks ps) = false.
Proof. destruct ps as [|[] ps]; reflexivity. Qed.

Lemma node_names_app a b : node_names (a ++ b) = node_names a ++ node_names b.
Proof.
  induction a as [|[i|n body|n body] a IH]; simpl; auto; now rewrite IH.
Qed.

Lemma existsb_node_named n acc :
  existsb (node_named n) acc = false <-> ~ In n (node_names acc).
Proof.
  induction acc as [|[i|m body|m body] acc IH]; simpl.
  - split; auto.
  - exact IH.
  - rewrite orb_false_iff, IH. split.
    + intros [H1 H2] [H|H]; [|tauto]. subst m. now rewrite str_eqb_refl in H1.
    + intros H. split; [|tauto].
      destruct (str_eqb n m) eqn:E; auto. apply str_eqb_eq in E. subst. tauto.
  - rewrite orb_false_iff, IH. split.
    + intros [H1 H2] [H|H]; [|tauto]. subst m. now rewrite str_eqb_refl in H1.
    + intros H. split; [|tauto].
      destruct (str_eqb n m) eqn:E; auto. apply str_eqb_eq in E. subst. tauto.
Qed.

(** The tokens of a placeholder are parsed as its group, unless the name
    is already taken. *)
Lemma parse_placeholder p n acc ts :
  group_name p = Some n ->
  starts_quantifier ts = false ->
  parse None acc (tpiece_toks p ++ ts)
  = if existsb (node_named n) acc then Raised ReError
    else parse None (tpiece_node p :: acc) ts.
Proof.
  intros Hn Hq.
  destruct p; try discriminate; injection Hn as <-;
    cbn [tpiece_toks app parse atom_of_token emit];
    match goal with
    | |- context [negb (valid_name ?x)] => change (negb (valid_name x)) with false
    end; cbv iota; cbn [list_ascii_of_string];
    match goal with
    | |- context [existsb ?f acc] => destruct (existsb f acc)
    end; try reflexivity;
    destruct ts as [|[]]; try discriminate Hq; reflexivity.
Qed.

Lemma parse_nodes_of ps : forall acc,
  lits_plain ps ->
  NoDup (node_names (rev acc) ++ node_names (nodes_of ps)) ->
  parse None acc (flat_map tpiece_toks ps) = Val (rev acc ++ nodes_of ps).
Proof.
  induction ps as [|p ps IH]; intros acc Hl Hn.
  - simpl. now rewrite app_nil_r.
  - assert (Hl' : lits_plain ps) by (intros c Hc; apply Hl; now right).
    assert (Hstep : forall nd, node_names (rev (nd :: acc)) ++ node_names (nodes_of ps)
                          = node_names (rev acc) ++ node_names (nd :: nodes_of ps)).
    { intros nd. cbn [rev]. rewrite node_names_app, <- app_assoc.
      f_equal. destruct nd; reflexivity. }
    assert (Hfresh : forall n, group_name p = Some n ->
                       existsb (node_named n) acc = false).
    { intros n E. apply existsb_node_named. intros Hin.
      cbn [nodes_of map] in Hn. fold (nodes_of ps) in Hn.
      assert (En : node_names (tpiece_node p :: nodes_of ps) = n :: node_names (nodes_of ps))
        by (destruct p; try discriminate; injection E as <-; reflexivity).
      rewrite En in Hn. apply NoDup_remove_2 in Hn. apply Hn.
      apply in_or_app. left.
      clear - Hin. induction acc as [|[i|m b|m b] acc IHa]; simpl in *; auto.
      - rewrite node_names_app, app_nil_r. simpl. auto.
      - rewrite node_names_app. simpl. apply in_or_app. destruct Hin; [right; now left | left; auto].
      - rewrite node_names_app. simpl. apply in_or_app. destruct Hin; [right; now left | left; auto]. }
    cbn [flat_map nodes_of map]. fold (nodes_of ps).
    replace (rev acc ++ tpiece_node p :: nodes_of ps)
      with (rev (tpiece_node p :: acc) ++ nodes_of ps)
      by (cbn [rev]; now rewrite <- app_assoc).
    destruct (group_name p) as [n|] eqn:Eg.
    + rewrite (parse_placeholder p n) by (auto using toks_no_quantifier).
      rewrite (Hfresh n eq_refl). apply IH; auto. now rewrite Hstep.
    + destruct p as [c| | |]; try discriminate.
      cbn [tpiece_toks app]. rewrite parse_ordinary by apply toks_no_quantifier.
      cbn [emit fst snd]. apply IH; auto. now rewrite Hstep.
Qed.

Lemma names_count n ps :
  In n (node_names (nodes_of ps)) ->
  exists p, group_name p = Some n /\ 1 <= count_piece p ps.
Proof.
  unfold count_piece. induction ps as [|q ps IH]; simpl; [tauto|].
  assert (Hmono : forall p, group_name p = Some n ->
            1 <= List.length (filter (tpiece_eqb p) ps) ->
            1 <= List.length (if tpiece_eqb p q then q :: filter (tpiece_eqb p) ps
                              else filter (tpiece_eqb p) ps)).
  { intros p _ Hle. destruct (tpiece_eqb p q); simpl; lia. }
  destruct q as [c| | |]; simpl.
  - intros H. destruct (IH H) as (p & Hp & Hc). exists p. split; auto.
  - intros [<-|H]; [exists TServer; split; simpl; auto; lia|].
    destruct (IH H) as (p & Hp & Hc). exists p. split; auto.
  - intros [<-|H]; [exists TPort; split; simpl; auto; lia|].
    destruct (IH H) as (p & Hp & Hc). exists p. split; auto.
  - intros [<-|H]; [exists TUuid; split; simpl; auto; lia|].
    destruct (IH H) as (p & Hp & Hc). exists p. split; auto.
Qed.

Lemma plain_template_tail p ps :
  plain_template (p :: ps) = true -> plain_template ps = true.
Proof.
  unfold plain_template, count_piece. cbn [forallb filter].
  rewrite !andb_true_iff, !Nat.leb_le. intros (((H1 & H2) & H3) & H4).
  destruct H1 as [_ H1].
  repeat split; auto;
    match goal with
    | H : List.length (if ?b then _ else _) <= 1 |- _ => destruct b; simpl in H; lia
    end.
Qed.

Lemma plain_template_names ps :
  plain_template ps = true -> NoDup (node_names (nodes_of ps)).
Proof.
  induction ps as [|p ps IH]; intros H; [constructor|].
  pose proof (IH (plain_template_tail _ _ H)) as Hnd.
  assert (Hone : forall q, is_lit q = false -> tpiece_eqb q p = true ->
                   count_piece q ps = 0).
  { intros q Hq Hp. unfold plain_template, count_piece in *. cbn [forallb filter] in H.
    rewrite !andb_true_iff, !Nat.leb_le in H. destruct H as (((_ & H2) & H3) & H4).
    destruct q, p; try discriminate; simpl in *; lia. }
  assert (Hfresh : forall n, group_name p = Some n -> ~ In n (node_names (nodes_of ps))).
  { intros n Hn Hin. destruct (names_count _ _ Hin) as (q & Hq & Hc).
    assert (q = p) by (destruct q, p; simpl in *; congruence). subst q.
    rewrite (Hone p) in Hc; [lia| |]; destruct p; try reflexivity; discriminate. }
  destruct p as [c| | |]; cbn [nodes_of map tpiece_node node_names]; auto;
    constructor; auto; apply Hfresh; reflexivity.
Qed.

(** The pattern derived from a plain template compiles to its nodes. *)
Lemma re_compile_template ps :
  plain_template ps = true ->
  re_compile (pattern (template_of ps)) = Val (nodes_of ps).
Proof.
  intros H. pose proof (plain_template_lits _ H) as Hl.
  rewrite pattern_template by now apply lits_plain_no_dollar.
  unfold re_compile. rewrite lex_pattern_of by assumption.
  rewrite (parse_nodes_of ps []); auto.
  simpl. now apply plain_template_names.
Qed.

Lemma count_piece_names p n ps :
  group_name p = Some n ->
  count_piece p ps = count_occ (list_eq_dec ascii_dec) (node_names (nodes_of ps)) n.
Proof.
  intros Hp. unfold count_piece. induction ps as [|q ps IH]; [reflexivity|].
  cbn [filter nodes_of map]. fold (nodes_of ps).
  destruct p; try discriminate; injection Hp as <-;
    destruct q; cbn [tpiece_eqb tpiece_node node_names List.length]; auto;
    match goal with
    | |- context [count_occ _ (?x :: _) ?y] =>
        destruct (list_eq_dec ascii_dec x y) as [E|E];
        [ try discriminate E; rewrite count_occ_cons_eq by exact E
        | try (exfalso; apply E; reflexivity); rewrite count_occ_cons_neq by exact E ]
    end; auto.
Qed.

Lemma repeated_placeholder_names ps :
  lits_ok ps = true -> plain_template ps = false ->
  ~ NoDup (node_names (nodes_of ps)).
Proof.
  intros Hl Hp Hnd. unfold plain_template in Hp. fold (lits_ok ps) in Hp.
  rewrite Hl in Hp. cbn [andb] in Hp.
  rewrite (NoDup_count_occ (list_eq_dec ascii_dec)) in Hnd.
  rewrite (count_piece_names TServer "server"), (count_piece_names TPort "port"),
    (count_piece_names TUuid "uuid") in Hp by reflexivity.
  pose proof (Hnd (list_ascii_of_string "server")) as H1.
  pose proof (Hnd (list_ascii_of_string "port")) as H2.
  pose proof (Hnd (list_ascii_of_string "uuid")) as H3.
  apply Nat.leb_le in H1, H2, H3. now rewrite H1, H2, H3 in Hp.
Qed.

Lemma node_names_rev_cons nd acc :
  node_names (rev (nd :: acc)) = node_names (rev acc) ++ node_names [nd].
Proof. cbn [rev]. apply node_names_app. Qed.

Lemma in_node_names_rev n acc :
  In n (node_names acc) <-> In n (node_names (rev acc)).
Proof.
  induction acc as [|nd acc IH]; [reflexivity|].
  rewrite node_names_rev_cons, in_app_iff, <- IH.
  destruct nd as [i|m b|m b]; cbn [node_names In]; tauto.
Qed.

(** The parser stops at the first group whose name is already taken. *)
Lemma parse_repeated_name ps : forall acc,
  lits_plain ps ->
  NoDup (node_names (rev acc)) ->
  ~ NoDup (node_names (rev acc) ++ node_names (nodes_of ps)) ->
  parse None acc (flat_map tpiece_toks ps) = Raised ReError.
Proof.
  induction ps as [|p ps IH]; intros acc Hl Hacc Hdup.
  - cbn [nodes_of map node_names] in Hdup. rewrite app_nil_r in Hdup. tauto.
  - assert (Hl' : lits_plain ps) by (intros c Hc; apply Hl; now right).
    assert (Hnext : ~ NoDup (node_names (rev (tpiece_node p :: acc))
                              ++ node_names (nodes_of ps))).
    { rewrite node_names_rev_cons, <- app_assoc.
      cbn [nodes_of map] in Hdup. fold (nodes_of ps) in Hdup.
      destruct p; exact Hdup. }
    cbn [flat_map]. destruct (group_name p) as [n|] eqn:Eg.
    + rewrite (parse_placeholder p n) by (auto using toks_no_quantifier).
      destruct (existsb (node_named n) acc) eqn:Ef; [reflexivity|].
      apply IH; auto.
      rewrite node_names_rev_cons.
      assert (En : node_names [tpiece_node p] = [n])
        by (destruct p; try discriminate; injection Eg as <-; reflexivity).
      rewrite En. apply existsb_node_named in Ef. rewrite in_node_names_rev in Ef.
      apply NoDup_app; [assumption|repeat constructor; auto|].
      intros x Hx [<-|[]]. tauto.
    + destruct p as [c| | |]; try discriminate.
      cbn [tpiece_toks app]. rewrite parse_ordinary by apply toks_no_quantifier.
      cbn [emit fst snd]. apply IH; auto.
      rewrite node_names_rev_cons. cbn [tpiece_node node_names]. now rewrite app_nil_r.
Qed.

Lemma lits_ok_plain ps : lits_ok ps = true -> lits_plain ps.
Proof.
  intros Hl c Hc. unfold lits_ok in Hl. rewrite forallb_forall in Hl.
  specialize (Hl _ Hc). now apply negb_true_iff in Hl.
Qed.

(** The pattern of a template that uses a placeholder twice does not
    compile. *)
Lemma re_compile_repeated ps :
  lits_ok ps = true -> plain_template ps = false ->
  re_compile (pattern (template_of ps)) = Raised ReError.
Proof.
  intros Hl Hp. pose proof (lits_ok_plain _ Hl) as Hlits.
  unfold re_compile.
  rewrite pattern_template by now apply lits_plain_no_dollar.
  rewrite lex_pattern_of by assumption.
  rewrite parse_repeated_name; auto; [constructor|].
  now apply repeated_placeholder_names.
Qed.

Lemma nodes_of_server l0 rest :
  nodes_of (map TLit l0 ++ TServer :: rest)
  = map lit_node l0 ++ NGroup "server" [IStar AAny] :: nodes_of rest.
Proof. unfold nodes_of. rewrite map_app, map_map. reflexivity. Qed.

Lemma plain_template_server_once l0 rest :
  plain_template (map TLit l0 ++ TServer :: rest) = true ->
  ~ In (list_ascii_of_string "server") (node_names (nodes_of rest)).
Proof.
  intros H. apply plain_template_names in H.
  rewrite nodes_of_server, node_names_app in H. cbn [node_names] in H.
  apply NoDup_remove_2 in H. intros Hin. apply H. apply in_or_app. now right.
Qed.

Lemma in_nodes_of p ps : In p ps -> In (tpiece_node p) (nodes_of ps).
Proof. apply in_map. Qed.

(** ** The runs of the matcher are the readings of the pattern *)

Lemma taken_app p s : taken (p ++ s) s = p.
Proof.
  unfold taken. rewrite length_app, Nat.add_sub.
  rewrite firstn_app, Nat.sub_diag, firstn_all. simpl. apply app_nil_r.
Qed.

Lemma taken_suffix_length p s : List.length (taken (p ++ s) s) + List.length s = List.length (p ++ s).
Proof. rewrite taken_app, length_app. reflexivity. Qed.

Lemma star_runs_spec a s s' :
  In s' (star_runs a s) <-> exists p, s = p ++ s' /\ forallb (atom_ok a) p = true.
Proof.
  revert s'. induction s as [|c s IH]; intros s'; simpl.
  - split.
    + intros [<-|[]]. now exists [].
    + intros (p & E & _). symmetry in E. apply app_eq_nil in E as [_ ->]. now left.
  - destruct (atom_ok a c) eqn:Hc.
    + rewrite in_app_iff, IH. simpl. split.
      * intros [(p & -> & Hp)|[<-|[]]].
        -- exists (c :: p). simpl. now rewrite Hc.
        -- now exists [].
      * intros ([|d p] & E & Hp); simpl in E.
        -- right. left. congruence.
        -- injection E as <- ->. simpl in Hp. apply andb_prop in Hp as [_ Hp].
           left. now exists p.
    + simpl. split.
      * intros [<-|[]]. now exists [].
      * intros ([|d p] & E & Hp); simpl in E.
        -- left. congruence.
        -- injection E as <- ->. simpl in Hp. rewrite Hc in Hp. discriminate.
Qed.

Lemma item_runs_spec i s s' :
  In s' (item_runs i s) <-> exists p, s = p ++ s' /\ item_reads i p s'.
Proof.
  destruct i as [a|a|a|].
  - destruct s as [|c s]; cbn [item_runs].
    + split; [intros []|]. intros (p & E & H). inversion H; subst. discriminate.
    + destruct (atom_ok a c) eqn:Hc.
      * split.
        -- intros [<-|[]]. exists [c]. split; auto. now constructor.
        -- intros (p & E & H). inversion H; subst. injection E as <- ->. now left.
      * split; [intros []|]. intros (p & E & H). inversion H; subst.
        injection E as <- ->. congruence.
  - cbn [item_runs]. rewrite star_runs_spec.
    split; intros (p & E & H); exists p; split; auto.
    + now constructor.
    + now inversion H.
  - destruct s as [|c s]; cbn [item_runs].
    + split; [intros []|]. intros (p & E & H). inversion H; subst.
      destruct p; [congruence|discriminate].
    + destruct (atom_ok a c) eqn:Hc.
      * rewrite star_runs_spec. split.
        -- intros (p & -> & Hp). exists (c :: p). split; auto.
           constructor; [discriminate|]. simpl. now rewrite Hc.
        -- intros ([|d p] & E & H); inversion H; subst; [congruence|].
           injection E as <- ->. exists p. split; auto.
           match goal with Hf : forallb _ (_ :: _) = true |- _ =>
             simpl in Hf; apply andb_prop in Hf as [_ Hf]; exact Hf end.
      * split; [intros []|].
        intros ([|d p] & E & H); inversion H; subst; [congruence|].
        injection E as <- ->.
        match goal with Hf : forallb _ (_ :: _) = true |- _ =>
          simpl in Hf; rewrite Hc in Hf; discriminate end.
  - split.
    + intros H. exists []. destruct s as [|c [|d s]]; cbn [item_runs] in H.
      * destruct H as [<-|[]]. split; auto. constructor. now left.
      * destruct (Ascii.eqb c newline) eqn:E; [|destruct H].
        destruct H as [<-|[]]. apply Ascii.eqb_eq in E. subst c.
        split; auto. constructor. now right.
      * destruct H.
    + intros (p & E & H). inversion H; subst. cbn [app item_runs].
      match goal with Hr : _ \/ _ |- _ => destruct Hr as [->| ->] end.
      * now left.
      * rewrite Ascii.eqb_refl. now left.
Qed.

Lemma items_runs_spec body : forall s s',
  In s' (items_runs body s) <-> exists p, s = p ++ s' /\ items_read body p s'.
Proof.
  induction body as [|i body IH]; intros s s'; simpl.
  - split.
    + intros [<-|[]]. exists []. split; auto. constructor.
    + intros (p & E & H). inversion H; subst. now left.
  - rewrite in_flat_map. split.
    + intros (s1 & H1 & H2). apply item_runs_spec in H1 as (p1 & -> & Hp1).
      apply IH in H2 as (p2 & -> & Hp2).
      exists (p1 ++ p2). split; [now rewrite app_assoc|]. now constructor.
    + intros (p & E & H). inversion H; subst.
      exists (p2 ++ s'). split.
      * apply item_runs_spec. exists p1. split; [now rewrite app_assoc|assumption].
      * apply IH. now exists p2.
Qed.

(** The runs of the matcher are the readings of the pattern. *)
Theorem nodes_runs_spec ns : forall s caps s' caps',
  In (s', caps') (nodes_runs ns s caps)
  <-> exists p, s = p ++ s' /\ nodes_read ns p s' caps caps'.
Proof.
  induction ns as [|[i|n body|n body] ns IH]; intros s caps s' caps'; simpl.
  - split.
    + intros [E|[]]. injection E as <- <-. exists []. split; auto. constructor.
    + intros (p & E & H). inversion H; subst. now left.
  - rewrite in_flat_map. split.
    + intros (s1 & H1 & H2). apply item_runs_spec in H1 as (p1 & -> & Hp1).
      apply IH in H2 as (p2 & -> & Hp2).
      exists (p1 ++ p2). split; [now rewrite app_assoc|]. now constructor.
    + intros (p & E & H). inversion H; subst.
      exists (p2 ++ s'). split.
      * apply item_runs_spec. exists p1. split; [now rewrite app_assoc|assumption].
      * apply IH. now exists p2.
  - rewrite in_flat_map. split.
    + intros (s1 & H1 & H2). apply items_runs_spec in H1 as (p1 & -> & Hp1).
      apply IH in H2 as (p2 & -> & Hp2). rewrite taken_app in Hp2.
      exists (p1 ++ p2). split; [now rewrite app_assoc|]. now constructor.
    + intros (p & E & H). inversion H; subst.
      exists (p2 ++ s'). split.
      * apply items_runs_spec. exists p1. split; [now rewrite app_assoc|assumption].
      * apply IH. exists p2. split; auto. now rewrite <- app_assoc, taken_app.
  - rewrite in_app_iff, in_flat_map. split.
    + intros [(s1 & H1 & H2)|H].
      * apply items_runs_spec in H1 as (p1 & -> & Hp1).
        apply IH in H2 as (p2 & -> & Hp2). rewrite taken_app in Hp2.
        exists (p1 ++ p2). split; [now rewrite app_assoc|]. now apply nodes_read_opt.
      * apply IH in H as (p & -> & Hp). exists p. split; auto. now apply nodes_read_skip.
    + intros (p & E & H). inversion H; subst.
      * left. exists (p2 ++ s'). split.
        -- apply items_runs_spec. exists p1. split; [now rewrite app_assoc|assumption].
        -- apply IH. exists p2. split; auto. now rewrite <- app_assoc, taken_app.
      * right. apply IH. now exists p.
Qed.

(** ** Captures *)

Lemma lookup_app_fresh {V} k (new caps : list (str * V)) :
  ~ In k (map fst new) -> lookup k (new ++ caps) = lookup k caps.
Proof.
  induction new as [|[k' v] new IH]; simpl; auto.
  intros H. destruct (str_eqb k k') eqn:E.
  - apply str_eqb_eq in E. subst. tauto.
  - apply IH. tauto.
Qed.

Lemma lookup_some_in {V} k (v : V) caps : lookup k caps = Some v -> In v (map snd caps).
Proof.
  induction caps as [|[k' v'] caps IH]; simpl; [discriminate|].
  destruct (str_eqb k k'); [intros E; injection E as ->; now left|auto].
Qed.

Lemma lookup_some_pair {V} k (v : V) caps : lookup k caps = Some v -> In (k, v) caps.
Proof.
  induction caps as [|[k' v'] caps IH]; cbn [lookup]; [discriminate|].
  destruct (str_eqb k k') eqn:E.
  - apply str_eqb_eq in E. subst k'. intros E'. injection E' as ->. now left.
  - intros H. right. auto.
Qed.

Lemma lookup_in_keys {V} k (caps : list (str * V)) :
  In k (map fst caps) -> exists v, lookup k caps = Some v.
Proof.
  induction caps as [|[k' v] caps IH]; cbn [map fst In lookup]; [tauto|].
  intros H. destruct (str_eqb k k') eqn:E; eauto.
  destruct H as [->|H]; auto. now rewrite str_eqb_refl in E.
Qed.

(** Reading a pattern binds groups of the pattern, on top of the captures
    it started from. *)
Lemma nodes_read_caps_incl ns p rest caps caps' :
  nodes_read ns p rest caps caps' ->
  exists new, caps' = new ++ caps
              /\ forall k, In k (map fst new) -> In k (node_names ns).
Proof.
  induction 1 as [rest caps|i ns p1 p2 rest caps caps' Hi Hn IH
                 |n body ns p1 p2 rest caps caps' Hb Hn IH
                 |n body ns p1 p2 rest caps caps' Hb Hn IH
                 |n body ns p rest caps caps' Hn IH].
  - exists []. split; [reflexivity|]. intros k [].
  - exact IH.
  - destruct IH as (new & -> & Hnew).
    exists (new ++ [(n, p1)]). split; [now rewrite <- app_assoc|].
    intros k Hk. rewrite map_app in Hk. apply in_app_or in Hk as [Hk|[<-|[]]].
    + right. auto.
    + now left.
  - destruct IH as (new & -> & Hnew).
    exists (new ++ [(n, p1)]). split; [now rewrite <- app_assoc|].
    intros k Hk. rewrite map_app in Hk. apply in_app_or in Hk as [Hk|[<-|[]]].
    + right. auto.
    + now left.
  - destruct IH as (new & -> & Hnew). exists new. split; [reflexivity|].
    intros k Hk. right. auto.
Qed.

(** Without optional groups, reading a pattern binds each of its groups
    once. *)
Lemma nodes_read_caps ns p rest caps caps' :
  no_optional ns = true ->
  nodes_read ns p rest caps caps' ->
  exists new, caps' = new ++ caps /\ map fst new = rev (node_names ns).
Proof.
  intros Hno H. revert Hno.
  induction H as [rest caps|i ns p1 p2 rest caps caps' Hi Hn IH
                 |n body ns p1 p2 rest caps caps' Hb Hn IH
                 |n body ns p1 p2 rest caps caps' Hb Hn IH
                 |n body ns p rest caps caps' Hn IH]; intros Hno;
    cbn [no_optional forallb andb] in Hno; try discriminate.
  - now exists [].
  - now apply IH.
  - destruct (IH Hno) as (new & -> & Hnew).
    exists (new ++ [(n, p1)]). split.
    + now rewrite <- app_assoc.
    + rewrite map_app, Hnew. reflexivity.
Qed.

(** The capture of a group is a text that the body of the group reads. *)
Lemma nodes_read_group_capture ns p rest caps caps' n body :
  nodes_read ns p rest caps caps' ->
  NoDup (node_names ns) -> In (NGroup n body) ns ->
  exists v rest', lookup n caps' = Some v /\ items_read body v rest'.
Proof.
  induction 1 as [rest caps|i ns p1 p2 rest caps caps' Hi Hn IH
                 |m body' ns p1 p2 rest caps caps' Hb Hn IH
                 |m body' ns p1 p2 rest caps caps' Hb Hn IH
                 |m body' ns p rest caps caps' Hn IH]; intros Hnd Hin.
  - destruct Hin.
  - destruct Hin as [Hin|Hin]; [discriminate|]. now apply IH.
  - simpl in Hnd. inversion Hnd as [|? ? Hfresh Hnd']; subst.
    destruct Hin as [Hin|Hin].
    + injection Hin as -> ->.
      destruct (nodes_read_caps_incl _ _ _ _ _ Hn) as (new & -> & Hnew).
      exists p1, (p2 ++ rest). split; auto.
      rewrite lookup_app_fresh.
      * simpl. now rewrite str_eqb_refl.
      * intros Hk. apply Hfresh. auto.
    + now apply IH.
  - simpl in Hnd. inversion Hnd as [|? ? Hfresh Hnd']; subst.
    destruct Hin as [Hin|Hin]; [discriminate|]. now apply IH.
  - simpl in Hnd. inversion Hnd as [|? ? Hfresh Hnd']; subst.
    destruct Hin as [Hin|Hin]; [discriminate|]. now apply IH.
Qed.

Lemma nodes_of_no_optional ps : no_optional (nodes_of ps) = true.
Proof.
  unfold no_optional, nodes_of. rewrite forallb_forall. intros x Hx.
  apply in_map_iff in Hx as (p & <- & _). destruct p; reflexivity.
Qed.

(** ** [re.search] *)

Section Search.

Variable ns : list node.

Lemma match_here_some s caps :
  match_here ns s = Some caps -> exists s', In (s', caps) (nodes_runs ns s []).
Proof.
  unfold match_here. destruct (nodes_runs ns s []) as [|[s' c] l]; [discriminate|].
  intros E. injection E as <-. exists s'. now left.
Qed.

Lemma match_here_none s :
  match_here ns s = None <-> nodes_runs ns s [] = [].
Proof.
  unfold match_here. destruct (nodes_runs ns s []) as [|[s' c] l]; split; congruence.
Qed.

(** A successful search is the match at some offset, and no earlier offset
    has a match. *)
Lemma search_some : forall s caps,
  search ns s = Some caps ->
  exists pre t, s = pre ++ t /\ match_here ns t = Some caps
    /\ forall pre1 pre2, pre = pre1 ++ pre2 -> pre2 <> [] ->
         match_here ns (pre2 ++ t) = None.
Proof.
  induction s as [|c s IH]; intros caps H; simpl in H.
  - destruct (match_here ns []) eqn:E; [|discriminate]. injection H as ->.
    exists [], []. repeat split; auto.
    intros pre1 pre2 E'. symmetry in E'. apply app_eq_nil in E' as [_ ->]. congruence.
  - destruct (match_here ns (c :: s)) eqn:E.
    + injection H as ->. exists [], (c :: s). repeat split; auto.
      intros pre1 pre2 E'. symmetry in E'. apply app_eq_nil in E' as [_ ->]. congruence.
    + destruct (IH _ H) as (pre & t & -> & Hm & Hleft).
      exists (c :: pre), t. repeat split; auto.
      intros [|d pre1] pre2 E' Hne; simpl in E'.
      * subst pre2. exact E.
      * injection E' as <- E'. eauto.
Qed.

Lemma search_none : forall s,
  search ns s = None <-> forall pre t, s = pre ++ t -> match_here ns t = None.
Proof.
  induction s as [|c s IH]; simpl.
  - destruct (match_here ns []) eqn:E; split.
    + discriminate.
    + intros H. specialize (H [] [] eq_refl). congruence.
    + intros _ pre t E'. symmetry in E'. apply app_eq_nil in E' as [_ ->]. exact E.
    + reflexivity.
  - destruct (match_here ns (c :: s)) eqn:E; split.
    + discriminate.
    + intros H. specialize (H [] (c :: s) eq_refl). congruence.
    + intros H [|d pre] t E'; simpl in E'.
      * now subst t.
      * injection E' as <- ->. rewrite IH in H. eauto.
    + intros H. apply IH. intros pre t ->. apply (H (c :: pre)). reflexivity.
Qed.

(** The search looks at every offset: a match anywhere makes it succeed,
    and it answers with the match of the leftmost offset that has one. *)
Lemma search_leftmost : forall pre t caps,
  match_here ns t = Some caps ->
  (forall pre1 pre2, pre = pre1 ++ pre2 -> pre2 <> [] ->
     match_here ns (pre2 ++ t) = None) ->
  search ns (pre ++ t) = Some caps.
Proof.
  induction pre as [|c pre IH]; intros t caps Hm Hleft.
  - simpl. destruct t; simpl; now rewrite Hm.
  - cbn [app search]. change (c :: pre ++ t) with ((c :: pre) ++ t).
    rewrite (Hleft [] (c :: pre) eq_refl) by discriminate.
    apply IH; auto. intros pre1 pre2 -> Hne. apply (Hleft (c :: pre1)); auto.
Qed.

Lemma search_anywhere pre t caps :
  match_here ns t = Some caps -> exists caps', search ns (pre ++ t) = Some caps'.
Proof.
  intros Hm. destruct (search ns (pre ++ t)) as [c|] eqn:E; eauto.
  rewrite search_none in E. rewrite (E pre t eq_refl) in Hm. discriminate.
Qed.

End Search.

(** Without a match at any offset the default is returned. *)
Lemma no_match_default path0 src tgt d ns :
  re_compile (pattern src) = Val ns ->
  (forall pre t, path0 = pre ++ t -> match_here ns t = None) ->
  get_juju_api_url path0 src tgt d = Val d.
Proof.
  intros Hc Hno. unfold get_juju_api_url. rewrite Hc. cbn [bind].
  apply search_none in Hno. now rewrite Hno.
Qed.

Lemma re_search_some p s caps :
  re_search p s = Val (Some caps) ->
  exists ns, re_compile p = Val ns /\ search ns s = Some caps.
Proof.
  unfold re_search. destruct (re_compile p) as [ns| |]; simpl; try discriminate.
  intros E. injection E as E. eauto.
Qed.

(** ** Greedy repetition *)

Lemma star_runs_length a s r : In r (star_runs a s) -> List.length r <= List.length s.
Proof.
  intros H. apply star_runs_spec in H as (p & -> & _). rewrite length_app. lia.
Qed.

(** Whatever follows a greedy repetition, the first run of the whole comes
    from the longest repetition that lets the rest succeed: every other run
    leaves at least as much text unread by the repetition. *)
Lemma star_runs_first {B} a (f : str -> list B) : forall s x xs,
  flat_map f (star_runs a s) = x :: xs ->
  exists r, In r (star_runs a s) /\ In x (f r) /\
    forall y, In y (flat_map f (star_runs a s)) ->
      exists r', In r' (star_runs a s) /\ In y (f r') /\ List.length r <= List.length r'.
Proof.
  assert (Hone : forall s x xs, flat_map f [s] = x :: xs ->
            exists r, In r [s] /\ In x (f r) /\
              forall y, In y (flat_map f [s]) ->
                exists r', In r' [s] /\ In y (f r') /\ List.length r <= List.length r').
  { intros s x xs E. simpl in E. rewrite app_nil_r in E.
    exists s. split; [now left|]. split; [rewrite E; now left|].
    intros y Hy. simpl in Hy. rewrite app_nil_r in Hy. exists s. simpl. auto. }
  induction s as [|c s IH]; intros x xs E; [now apply (Hone [] x xs)|].
  cbn [star_runs] in *. destruct (atom_ok a c); [|now apply (Hone (c :: s) x xs)].
  rewrite flat_map_app in E.
  destruct (flat_map f (star_runs a s)) as [|x0 l0] eqn:E0.
  - destruct (Hone (c :: s) x xs E) as (r & Hr & Hx & Hall).
    exists r. split; [apply in_or_app; now right|]. split; auto.
    intros y Hy. rewrite flat_map_app, E0 in Hy.
    destruct (Hall y Hy) as (r' & Hr' & Hy' & Hle).
    exists r'. split; auto. apply in_or_app. now right.
  - injection E as <- _.
    destruct (IH x0 l0 eq_refl) as (r & Hr & Hx & Hall).
    exists r. split; [apply in_or_app; now left|]. split; auto.
    intros y Hy. rewrite flat_map_app in Hy. apply in_app_or in Hy as [Hy|Hy].
    + rewrite E0 in Hy. destruct (Hall y Hy) as (r' & Hr' & Hy' & Hle).
      exists r'. split; auto. apply in_or_app. now left.
    + simpl in Hy. rewrite app_nil_r in Hy.
      exists (c :: s). split; [apply in_or_app; right; now left|]. split; auto.
      apply star_runs_length in Hr. simpl. lia.
Qed.

(** Ordinary characters match themselves and nothing else. *)
Lemma nodes_runs_lits l tail : forall s caps,
  nodes_runs (map lit_node l ++ tail) s caps
  = if startswith l s then nodes_runs tail (skipn (List.length l) s) caps else [].
Proof.
  induction l as [|c l IH]; intros s caps; [reflexivity|].
  cbn [map app nodes_runs lit_node item_runs atom_ok startswith].
  destruct s as [|d s]; [reflexivity|].
  rewrite (Ascii.eqb_sym c d). destruct (Ascii.eqb d c); [|reflexivity].
  cbn [flat_map andb]. rewrite app_nil_r. fold lit_node. rewrite IH. reflexivity.
Qed.

Lemma items_runs_single i s : items_runs [i] s = item_runs i s.
Proof.
  simpl. induction (item_runs i s) as [|x l IH]; simpl; congruence.
Qed.

(** The server group of a pattern that opens with ordinary characters
    followed by [$server]: the match found captures at least as much for the
    server as any other way of reading the pattern at that offset. *)
Lemma server_capture_longest l0 tail t caps :
  ~ In (list_ascii_of_string "server") (node_names tail) ->
  match_here (map lit_node l0 ++ NGroup "server" [IStar AAny] :: tail) t = Some caps ->
  exists v, lookup "server" caps = Some v /\
    forall s' caps',
      In (s', caps') (nodes_runs (map lit_node l0 ++ NGroup "server" [IStar AAny] :: tail) t []) ->
      exists v', lookup "server" caps' = Some v' /\ List.length v' <= List.length v.
Proof.
  intros Hfresh Hm.
  assert (Hcap : forall t1 r sc c,
            In r (star_runs AAny t1) ->
            In (sc, c) (nodes_runs tail r [(list_ascii_of_string "server", taken t1 r)]) ->
            lookup "server" c = Some (taken t1 r)).
  { intros t1 r sc c _ Hin. apply nodes_runs_spec in Hin as (p & _ & Hrd).
    apply nodes_read_caps_incl in Hrd as (new & -> & Hnew).
    rewrite lookup_app_fresh; [reflexivity|]. intros Hk. apply Hfresh. auto. }
  unfold match_here in Hm. rewrite nodes_runs_lits in *.
  destruct (startswith l0 t); [|discriminate].
  set (t1 := skipn (List.length l0) t) in *.
  cbn [nodes_runs] in *. rewrite items_runs_single in *. cbn [item_runs] in *.
  match goal with
  | |- context [flat_map ?g (star_runs AAny t1)] =>
      destruct (flat_map g (star_runs AAny t1)) as [|x xs] eqn:E; [discriminate|];
      destruct (star_runs_first AAny g t1 x xs E) as (r & Hr & Hx & Hall)
  end.
  destruct x as [sx cx]. injection Hm as <-.
  exists (taken t1 r). split; [now apply (Hcap t1 r sx)|].
  intros s' caps' Hin. rewrite <- E in Hin.
  destruct (Hall _ Hin) as (r' & Hr' & Hy & Hle).
  exists (taken t1 r'). split; [now apply (Hcap t1 r' s')|].
  apply star_runs_spec in Hr as (q & Eq & _), Hr' as (q' & Eq' & _).
  pose proof (taken_suffix_length q r) as H1.
  pose proof (taken_suffix_length q' r') as H2.
  rewrite <- Eq in H1. rewrite <- Eq' in H2. lia.
Qed.


(** ** [str.format] *)

Lemma format_text kw c rest :
  is_brace c = false ->
  format_from None kw (c :: rest) = rmap (cons c) (format_from None kw rest).
Proof.
  unfold is_brace. intros H. apply orb_false_elim in H as [H1 H2].
  cbn [format_from]. now rewrite H1, H2.
Qed.

Lemma format_in_field kw : forall n r rest,
  forallb (fun c => negb (is_field_special c) && negb (Ascii.eqb c "}")) n = true ->
  format_from (Some r) kw (n ++ "}"%char :: rest)
  = (v <- field_value (rev r ++ n) kw ;; rmap (app v) (format_from None kw rest)).
Proof.
  induction n as [|c n IH]; intros r rest H.
  - cbn [app format_from]. rewrite Ascii.eqb_refl, app_nil_r. reflexivity.
  - cbn [forallb] in H. apply andb_prop in H as [Hc Hn]. apply andb_prop in Hc as [H1 H2].
    apply negb_true_iff in H1, H2.
    cbn [app format_from]. rewrite H1, H2, IH by assumption.
    cbn [rev]. now rewrite <- app_assoc.
Qed.

Lemma field_name_ok_value n kw :
  field_name_ok n = true ->
  field_value n kw = match lookup n kw with
                     | Some v => Val (pyval_str v)
                     | None => Raised (KeyError n)
                     end.
Proof.
  unfold field_name_ok, field_value. intros H. apply andb_prop in H as [H _].
  apply negb_true_iff in H. destruct n; [discriminate|]. now rewrite H.
Qed.

Lemma format_field kw n rest :
  field_name_ok n = true ->
  format_from None kw (placeholder_token n ++ rest)
  = match lookup n kw with
    | Some v => rmap (app (pyval_str v)) (format_from None kw rest)
    | None => Raised (KeyError n)
    end.
Proof.
  intros H. pose proof (field_name_ok_value n kw H) as Hv.
  unfold field_name_ok in H. apply andb_prop in H as [Hd Hn].
  unfold placeholder_token. cbn [app]. rewrite <- app_assoc. cbn [app].
  destruct n as [|c n]; [discriminate|].
  assert (Hc : Ascii.eqb c "{" = false).
  { cbn [forallb] in Hn. apply andb_prop in Hn as [Hc _]. apply andb_prop in Hc as [Hc _].
    apply negb_true_iff in Hc. unfold is_field_special in Hc. cbn [existsb list_ascii_of_string] in Hc.
    now apply orb_false_elim in Hc as [Hc _]. }
  change (format_from None kw ("{"%char :: (c :: n) ++ "}"%char :: rest))
    with (if Ascii.eqb c "{"
          then rmap (cons "{"%char) (format_from None kw (n ++ "}"%char :: rest))
          else format_from (Some []) kw ((c :: n) ++ "}"%char :: rest)).
  rewrite Hc, format_in_field by assumption. cbn [rev app]. rewrite Hv.
  destruct (lookup (c :: n) kw); reflexivity.
Qed.

(** Formatting a template whose fields are all keys of the keyword
    arguments renders each field by its value. *)
Lemma format_render kw tps :
  forallb fpiece_ok tps = true -> fields_bound kw tps = true ->
  format (target_of tps) kw = Val (flat_map (fpiece_render kw) tps).
Proof.
  unfold format, target_of. induction tps as [|p tps IH]; intros Hok Hb; [reflexivity|].
  cbn [forallb fields_bound] in Hok, Hb.
  apply andb_prop in Hok as [Hp Hok]. apply andb_prop in Hb as [Hc Hb].
  specialize (IH Hok Hb). cbn [flat_map]. destruct p as [c|n].
  - cbn [fpiece_src app]. rewrite format_text by (now apply negb_true_iff in Hp).
    now rewrite IH.
  - cbn [fpiece_src fpiece_render]. rewrite format_field by assumption.
    destruct (lookup n kw); [|discriminate]. now rewrite IH.
Qed.

(** A field that is no key of the keyword arguments makes the formatting
    raise [KeyError] for the first such field. *)
Lemma format_missing_key kw tps :
  forallb fpiece_ok tps = true -> fields_bound kw tps = false ->
  exists k, format (target_of tps) kw = Raised (KeyError k)
            /\ In (FField k) tps /\ lookup k kw = None.
Proof.
  unfold format, target_of. induction tps as [|p tps IH]; intros Hok Hb; [discriminate|].
  cbn [forallb fields_bound] in Hok, Hb.
  apply andb_prop in Hok as [Hp Hok]. cbn [flat_map]. destruct p as [c|n].
  - simpl in Hb. destruct (IH Hok Hb) as (k & Hk & Hin & Hl).
    exists k. split; [|split; [now right|assumption]].
    cbn [fpiece_src app]. rewrite format_text by (now apply negb_true_iff in Hp).
    now rewrite Hk.
  - cbn [fpiece_src]. rewrite format_field by assumption.
    destruct (lookup n kw) eqn:El.
    + simpl in Hb. destruct (IH Hok Hb) as (k & Hk & Hin & Hl).
      exists k. split; [|split; [now right|assumption]]. now rewrite Hk.
    + exists n. split; [reflexivity|]. split; [now left|assumption].
Qed.

(** The field named by the [KeyError] is the first one that is no key. *)
Lemma format_first_missing kw tps :
  forallb fpiece_ok tps = true -> fields_bound kw tps = false ->
  exists front k back,
    tps = front ++ FField k :: back /\ fields_bound kw front = true
    /\ lookup k kw = None
    /\ format (target_of tps) kw = Raised (KeyError k).
Proof.
  unfold format, target_of. induction tps as [|p tps IH]; intros Hok Hb; [discriminate|].
  cbn [forallb fields_bound] in Hok, Hb.
  apply andb_prop in Hok as [Hp Hok]. cbn [flat_map]. destruct p as [c|n].
  - simpl in Hb. destruct (IH Hok Hb) as (front & k & back & -> & Hf & Hl & Hk).
    exists (FText c :: front), k, back. repeat split; auto.
    cbn [fpiece_src app]. rewrite format_text by (now apply negb_true_iff in Hp).
    now rewrite Hk.
  - cbn [fpiece_src]. rewrite format_field by assumption.
    destruct (lookup n kw) eqn:El.
    + simpl in Hb. destruct (IH Hok Hb) as (front & k & back & -> & Hf & Hl & Hk).
      exists (FField n :: front), k, back. repeat split; auto.
      * cbn [fields_bound forallb]. now rewrite El.
      * now rewrite Hk.
    + exists [], n, tps. repeat split; auto.
Qed.

(** The keys of [groupdict] are the names of the groups of the pattern. *)
Lemma lookup_groupdict ns caps n :
  lookup n (groupdict ns caps)
  = if existsb (str_eqb n) (node_names ns)
    then Some (match lookup n caps with Some v => PStr v | None => PNone end)
    else None.
Proof.
  unfold groupdict. induction (node_names ns) as [|m l IH]; [reflexivity|].
  cbn [map lookup existsb]. destruct (str_eqb n m) eqn:E; [|exact IH].
  apply str_eqb_eq in E. now subst m.
Qed.

Lemma existsb_str_in n l : existsb (str_eqb n) l = true <-> In n l.
Proof.
  rewrite existsb_exists. split.
  - intros (x & Hx & E). apply str_eqb_eq in E. now subst.
  - intros H. exists n. split; auto. apply str_eqb_refl.
Qed.

Lemma search_caps_keys ns s caps :
  search ns s = Some caps ->
  forall k, In k (map fst caps) -> In k (node_names ns).
Proof.
  intros Hs. apply search_some in Hs as (pre & t & _ & Hm & _).
  apply match_here_some in Hm as (s' & Hrun).
  apply nodes_runs_spec in Hrun as (p & _ & Hrd).
  apply nodes_read_caps_incl in Hrd as (new & -> & Hnew).
  now rewrite app_nil_r.
Qed.

(** Formatting with the [groupdict] of a match a template whose fields all
    name groups that took part substitutes each field by its capture. *)
Lemma format_target ns caps tps :
  (forall k, In k (map fst caps) -> In k (node_names ns)) ->
  forallb fpiece_ok tps = true -> fields_captured caps tps = true ->
  format (target_of tps) (groupdict ns caps) = Val (flat_map (fpiece_out caps) tps).
Proof.
  intros Hkeys Hok Hcap.
  assert (Hfield : forall n, In (FField n) tps ->
            exists v, lookup n caps = Some v
                      /\ lookup n (groupdict ns caps) = Some (PStr v)).
  { intros n Hin. unfold fields_captured in Hcap. rewrite forallb_forall in Hcap.
    specialize (Hcap _ Hin). cbn in Hcap. unfold captured in Hcap.
    destruct (lookup n caps) as [v|] eqn:El; [|discriminate].
    exists v. split; [reflexivity|]. rewrite lookup_groupdict, El.
    replace (existsb (str_eqb n) (node_names ns)) with true; [reflexivity|].
    symmetry. apply existsb_str_in. apply Hkeys.
    apply lookup_some_pair in El. apply in_map_iff. now exists (n, v). }
  rewrite format_render; [f_equal| assumption |].
  - clear Hok Hcap. induction tps as [|p tps IH]; [reflexivity|].
    cbn [flat_map]. f_equal.
    + destruct p as [c|n]; [reflexivity|].
      destruct (Hfield n (or_introl eq_refl)) as (v & E1 & E2).
      cbn [fpiece_render fpiece_out]. now rewrite E1, E2.
    + apply IH. intros n Hin. apply Hfield. now right.
  - unfold fields_bound. rewrite forallb_forall. intros [c|n] Hin; [reflexivity|].
    destruct (Hfield n Hin) as (v & _ & E2). now rewrite E2.
Qed.

Lemma brace_free_in s : brace_free s = true -> ~ In "{"%char s.
Proof.
  unfold brace_free. rewrite forallb_forall. intros H Hin.
  specialize (H _ Hin). now rewrite Ascii.eqb_refl in H.
Qed.

Lemma format_output_brace_free caps tps :
  forallb fpiece_ok tps = true -> captures_brace_free caps = true ->
  ~ In "{"%char (flat_map (fpiece_out caps) tps).
Proof.
  intros Hok Hbf Hin. apply in_flat_map in Hin as (p & Hp & Hin).
  rewrite forallb_forall in Hok. specialize (Hok _ Hp). destruct p as [c|n]; simpl in *.
  - destruct Hin as [->|[]]. discriminate.
  - destruct (lookup n caps) as [v|] eqn:El; [|destruct Hin].
    apply lookup_some_in in El. apply in_map_iff in El as ([k v'] & E & Hkv).
    simpl in E. subst v'. unfold captures_brace_free in Hbf.
    rewrite forallb_forall in Hbf. specialize (Hbf _ Hkv). simpl in Hbf.
    now apply brace_free_in in Hbf.
Qed.

(** ** [get_juju_api_url] *)

Lemma get_juju_api_url_unfold path0 src tgt d ns :
  re_compile (pattern src) = Val ns ->
  get_juju_api_url path0 src tgt d
  = match search ns path0 with
    | None => Val d
    | Some caps => format tgt (groupdict ns caps)
    end.
Proof. intros H. unfold get_juju_api_url. now rewrite H. Qed.

(** When the search finds a match, the target is formatted with its
    [groupdict]. *)
Lemma get_juju_api_url_match path0 src tgt d caps :
  re_search (pattern src) path0 = Val (Some caps) ->
  exists ns, re_compile (pattern src) = Val ns
             /\ search ns path0 = Some caps
             /\ get_juju_api_url path0 src tgt d = format tgt (groupdict ns caps).
Proof.
  intros Hs. unfold re_search in Hs.
  destruct (re_compile (pattern src)) as [ns| |] eqn:Ec; cbn [bind] in Hs; try discriminate.
  injection Hs as Hs. exists ns. repeat split; auto.
  unfold get_juju_api_url. rewrite Ec. cbn [bind]. now rewrite Hs.
Qed.

(** C1, as amended.  When the derived pattern matches and the target
    template is made of brace-free text and of fields naming captured
    groups, the function returns the template with every field replaced by
    the text captured for it; and when no captured text holds an opening
    brace, no placeholder token is left in the returned URL. *)
Theorem get_juju_api_url_substitutes path0 src d caps tps :
  re_search (pattern src) path0 = Val (Some caps) ->
  forallb fpiece_ok tps = true ->
  fields_captured caps tps = true ->
  get_juju_api_url path0 src (target_of tps) d = Val (flat_map (fpiece_out caps) tps)
  /\ (captures_brace_free caps = true ->
      forall n, contains (placeholder_token n) (flat_map (fpiece_out caps) tps) = false).
Proof.
  intros Hs Hok Hcap. split.
  - destruct (get_juju_api_url_match _ _ (target_of tps) d _ Hs) as (ns & _ & Hsearch & ->).
    apply format_target; auto. now apply search_caps_keys with (s := path0).
  - intros Hbf n. destruct (contains _ _) eqn:E; [|reflexivity].
    apply contains_head in E. now apply format_output_brace_free in E.
Qed.

Lemma get_juju_api_url_substitutes_witness :
  get_juju_api_url "/api/10.0.0.5/17070/abcd-1234" doc_source
    (target_of [FField "server"; FText ":"; FField "port"; FText "/"; FField "uuid"]) ""
  = Val (list_ascii_of_string "10.0.0.5:17070/abcd-1234").
Proof.
  apply (get_juju_api_url_substitutes "/api/10.0.0.5/17070/abcd-1234" doc_source ""
           [(list_ascii_of_string "uuid", list_ascii_of_string "abcd-1234");
            (list_ascii_of_string "port", list_ascii_of_string "17070");
            (list_ascii_of_string "server", list_ascii_of_string "10.0.0.5")]
           [FField "server"; FText ":"; FField "port"; FText "/"; FField "uuid"]);
    vm_compute; reflexivity.
Defined.

(** C1, as stated, fails: a placeholder token can remain in the returned
    URL, because the captured text comes from the path and can itself be
    one. *)
Lemma get_juju_api_url_token_remains :
  re_search (pattern doc_source) "/api/{uuid}/1/x"
  = Val (Some [(list_ascii_of_string "uuid", list_ascii_of_string "x");
               (list_ascii_of_string "port", list_ascii_of_string "1");
               (list_ascii_of_string "server", list_ascii_of_string "{uuid}")])
  /\ get_juju_api_url "/api/{uuid}/1/x" doc_source doc_target ""
     = Val (list_ascii_of_string "wss://{uuid}:1/environment/x/api")
  /\ contains (placeholder_token "uuid") "wss://{uuid}:1/environment/x/api" = true.
Proof. repeat split; vm_compute; reflexivity. Qed.

(** The search fails exactly when the pattern can be read at no offset of
    the text. *)
Lemma search_none_readings ns s :
  search ns s = None
  <-> forall pre p s' caps', s = pre ++ p ++ s' -> ~ nodes_read ns p s' [] caps'.
Proof.
  rewrite search_none. split.
  - intros H pre p s' caps' E Hrd.
    specialize (H pre (p ++ s') E). apply match_here_none in H.
    assert (Hin : In (s', caps') (nodes_runs ns (p ++ s') []))
      by (apply nodes_runs_spec; eauto).
    rewrite H in Hin. destruct Hin.
  - intros H pre t E. apply match_here_none.
    destruct (nodes_runs ns t []) as [|[s' caps'] l] eqn:Er; [reflexivity|].
    assert (Hin : In (s', caps') (nodes_runs ns t [])) by (rewrite Er; now left).
    apply nodes_runs_spec in Hin as (p & -> & Hrd).
    destruct (H pre p s' caps' E Hrd).
Qed.

(** C2, as amended.  When the derived pattern compiles, a path in which
    it can be read at no offset makes the function return the default
    itself, and nothing is raised.  The pattern of a template made of
    ordinary characters and of placeholders compiles when no placeholder is
    used twice and is refused by [re] otherwise; and when the pattern is
    refused, the error is raised whatever the path is. *)
Theorem get_juju_api_url_default path0 src tgt d ns :
  re_compile (pattern src) = Val ns ->
  (forall pre p s' caps', path0 = pre ++ p ++ s' -> ~ nodes_read ns p s' [] caps') ->
  get_juju_api_url path0 src tgt d = Val d
  /\ (forall ps, lits_ok ps = true ->
        re_compile (pattern (template_of ps))
        = if plain_template ps then Val (nodes_of ps) else Raised ReError)
  /\ (forall src' e, re_compile (pattern src') = Raised e ->
        get_juju_api_url path0 src' tgt d = Raised e).
Proof.
  intros Hc Hno. split; [|split].
  - apply no_match_default with (ns := ns); [assumption|].
    apply search_none. now apply search_none_readings.
  - intros ps Hl. destruct (plain_template ps) eqn:Ep.
    + now apply re_compile_template.
    + now apply re_compile_repeated.
  - intros src' e He. unfold get_juju_api_url. now rewrite He.
Qed.

Lemma get_juju_api_url_default_witness :
  get_juju_api_url "/legacy/path" doc_source doc_target "wss://fallback:17070/api"
  = Val (list_ascii_of_string "wss://fallback:17070/api").
Proof.
  apply (get_juju_api_url_default "/legacy/path" doc_source doc_target
           "wss://fallback:17070/api" (nodes_of doc_pieces)).
  - reflexivity.
  - apply search_none_readings. vm_compute. reflexivity.
Defined.

(** C2, as stated, fails: with a source template that uses [$server]
    twice, a path that matches nothing does not give the default, the call
    raises; the same path gives the default with the documented template. *)
Lemma get_juju_api_url_default_raises :
  get_juju_api_url "/legacy/path" "/$server/$port/$server" doc_target
    "wss://fallback:17070/api"
  = Raised ReError
  /\ get_juju_api_url "/legacy/path" doc_source doc_target "wss://fallback:17070/api"
     = Val (list_ascii_of_string "wss://fallback:17070/api").
Proof. split; vm_compute; reflexivity. Qed.

(** C3, as amended.  For every template of ordinary characters and
    placeholders, the pattern keeps every ordinary character where it is
    and puts the greedy groups [server_group], [port_group] and
    [uuid_group] for the placeholders; and when the template opens with
    ordinary characters followed by [$server] and uses no placeholder
    twice, the server text of the match found is the longest one among all
    the ways of reading the pattern at the offset of the match. *)
Theorem pattern_server_greedy ps :
  no_dollar ps ->
  pattern (template_of ps) = pattern_of ps
  /\ forall l0 rest path0 caps,
       ps = map TLit l0 ++ TServer :: rest ->
       plain_template ps = true ->
       re_search (pattern (template_of ps)) path0 = Val (Some caps) ->
       exists pre t v,
         path0 = pre ++ t
         /\ match_here (nodes_of ps) t = Some caps
         /\ lookup "server" caps = Some v
         /\ forall p s' caps' v',
              t = p ++ s' ->
              nodes_read (nodes_of ps) p s' [] caps' ->
              lookup "server" caps' = Some v' ->
              List.length v' <= List.length v.
Proof.
  intros Hd. split; [now apply pattern_template|].
  intros l0 rest path0 caps -> Hp Hs.
  apply re_search_some in Hs as (ns & Hc & Hsearch).
  rewrite (re_compile_template _ Hp) in Hc. injection Hc as <-.
  apply search_some in Hsearch as (pre & t & -> & Hm & _).
  pose proof Hm as Hm'. rewrite nodes_of_server in Hm'.
  destruct (server_capture_longest l0 (nodes_of rest) t caps
              (plain_template_server_once _ _ Hp) Hm') as (v & Hv & Hall).
  exists pre, t, v. repeat split; auto.
  intros p s' caps' v' -> Hrd Hv'.
  assert (Hin : In (s', caps') (nodes_runs (nodes_of (map TLit l0 ++ TServer :: rest)) (p ++ s') []))
    by (apply nodes_runs_spec; eauto).
  rewrite nodes_of_server in Hin. apply Hall in Hin as (v'' & Hv'' & Hle).
  congruence.
Qed.

Lemma pattern_server_greedy_witness :
  pattern (template_of [TLit "/"; TPort; TLit "/"; TUuid; TLit "@"; TServer])
  = pattern_of [TLit "/"; TPort; TLit "/"; TUuid; TLit "@"; TServer].
Proof.
  apply (pattern_server_greedy [TLit "/"; TPort; TLit "/"; TUuid; TLit "@"; TServer]).
  intros c Hin ->. simpl in Hin. intuition discriminate.
Defined.

(** C3, as stated, fails: the groups put for [$server] and [$uuid] are
    greedy, and on a path with several splits the server text is not the
    shortest one.  Here the match found has the server text "a/1" although
    the pattern also reads the path with the server text "a". *)
Lemma pattern_server_not_shortest :
  pattern doc_source
  = list_ascii_of_string "/api/(?P<server>.*)/(?P<port>\d+)/(?P<uuid>.*)"
  /\ re_search (pattern doc_source) "/api/a/1/2/b"
     = Val (Some [(list_ascii_of_string "uuid", list_ascii_of_string "b");
                  (list_ascii_of_string "port", list_ascii_of_string "2");
                  (list_ascii_of_string "server", list_ascii_of_string "a/1")])
  /\ nodes_read (nodes_of doc_pieces) "/api/a/1/2/b" [] []
       [(list_ascii_of_string "uuid", list_ascii_of_string "2/b");
        (list_ascii_of_string "port", list_ascii_of_string "1");
        (list_ascii_of_string "server", list_ascii_of_string "a")].
Proof.
  split; [reflexivity|]. split; [vm_compute; reflexivity|].
  assert (H : In ([], [(list_ascii_of_string "uuid", list_ascii_of_string "2/b");
                       (list_ascii_of_string "port", list_ascii_of_string "1");
                       (list_ascii_of_string "server", list_ascii_of_string "a")])
                (nodes_runs (nodes_of doc_pieces) "/api/a/1/2/b" [])).
  { vm_compute. tauto. }
  apply nodes_runs_spec in H as (p & E & H). rewrite app_nil_r in E. now subst p.
Qed.

(** C4, as amended.  Whenever the derived pattern of a template with
    [$port] matches, the text captured for the port is a sequence of one or
    more decimal digits; and a path in which the pattern can be read at no
    offset, whatever the split, makes the function return the default. *)
Theorem port_capture_digits ps path0 tgt d :
  plain_template ps = true ->
  In TPort ps ->
  (forall caps,
     re_search (pattern (template_of ps)) path0 = Val (Some caps) ->
     exists v, lookup "port" caps = Some v /\ v <> [] /\ forallb is_digit v = true)
  /\ ((forall pre p s' caps',
         path0 = pre ++ p ++ s' -> ~ nodes_read (nodes_of ps) p s' [] caps') ->
      get_juju_api_url path0 (template_of ps) tgt d = Val d).
Proof.
  intros Hp Hin. pose proof (re_compile_template _ Hp) as Hcomp. split.
  - intros caps Hs.
    apply re_search_some in Hs as (ns & Hc & Hsearch).
    rewrite Hcomp in Hc. injection Hc as <-.
    apply search_some in Hsearch as (pre & t & -> & Hm & _).
    apply match_here_some in Hm as (s' & Hrun).
    apply nodes_runs_spec in Hrun as (p & _ & Hrd).
    destruct (nodes_read_group_capture _ _ _ _ _ "port" [IPlus ADigit] Hrd)
      as (v & rest' & Hv & Hbody).
    + now apply plain_template_names.
    + apply (in_nodes_of TPort). assumption.
    + exists v. split; auto.
      inversion Hbody as [|i body p1 p2 r Hi Hnil]; subst.
      inversion Hnil; subst. rewrite app_nil_r.
      inversion Hi; subst. auto.
  - intros Hno. apply (no_match_default _ _ _ _ _ Hcomp).
    intros pre t ->. apply match_here_none.
    destruct (nodes_runs (nodes_of ps) t []) as [|[s' caps'] l] eqn:E; [reflexivity|].
    assert (Hrun : In (s', caps') (nodes_runs (nodes_of ps) t [])) by (rewrite E; now left).
    apply nodes_runs_spec in Hrun as (p & -> & Hrd).
    destruct (Hno pre p s' caps' eq_refl Hrd).
Qed.

Lemma port_capture_digits_witness :
  exists v, lookup "port"
              [(list_ascii_of_string "uuid", list_ascii_of_string "uuid1");
               (list_ascii_of_string "port", list_ascii_of_string "1");
               (list_ascii_of_string "server", list_ascii_of_string "host/notaport")]
            = Some v /\ v <> [] /\ forallb is_digit v = true.
Proof.
  assert (Hin : In TPort doc_pieces) by (simpl; tauto).
  destruct (port_capture_digits doc_pieces "/api/host/notaport/1/uuid1" doc_target ""
              eq_refl Hin) as [H _].
  apply H. vm_compute. reflexivity.
Defined.

(** C4, as stated, fails: the segment at the port position of this path is
    not a number, yet the pattern matches, the greedy server group taking
    that segment too, and a URL is returned instead of the default. *)
Lemma port_segment_not_digits_matches :
  get_juju_api_url "/api/host/notaport/1/uuid1" doc_source doc_target
    "wss://fallback:17070/api"
  = Val (list_ascii_of_string "wss://host/notaport:1/environment/uuid1/api")
  /\ get_juju_api_url "/api/12ab" "/api/$port" "{port}" "wss://fallback:17070/api"
     = Val (list_ascii_of_string "12").
Proof. split; vm_compute; reflexivity. Qed.

Lemma fields_bound_named ns caps tps :
  fields_bound (groupdict ns caps) tps = fields_named ns tps.
Proof.
  unfold fields_bound, fields_named. induction tps as [|p tps IH]; [reflexivity|].
  cbn [forallb]. rewrite IH. f_equal. destruct p as [c|n]; [reflexivity|].
  rewrite lookup_groupdict. destruct (existsb (str_eqb n) (node_names ns)); reflexivity.
Qed.

(** Without optional groups, the groups that took part in a match are the
    groups of the pattern. *)
Lemma fields_captured_named ns s caps tps :
  no_optional ns = true -> search ns s = Some caps ->
  fields_captured caps tps = fields_named ns tps.
Proof.
  intros Hno Hs. apply search_some in Hs as (pre & t & _ & Hm & _).
  apply match_here_some in Hm as (s' & Hrun).
  apply nodes_runs_spec in Hrun as (p & _ & Hrd).
  apply (nodes_read_caps _ _ _ _ _ Hno) in Hrd as (new & -> & Hnew).
  rewrite app_nil_r. unfold fields_captured, fields_named.
  induction tps as [|x tps IH]; [reflexivity|].
  cbn [forallb]. rewrite IH. f_equal. destruct x as [c|n]; [reflexivity|].
  unfold captured. destruct (existsb (str_eqb n) (node_names ns)) eqn:E.
  - apply existsb_str_in in E. destruct (lookup_in_keys n new) as (v & ->); [|reflexivity].
    rewrite Hnew. now apply in_rev in E.
  - destruct (lookup n new) as [v|] eqn:El; [|reflexivity].
    apply lookup_some_pair in El.
    assert (Hin : In n (map fst new)) by (apply in_map_iff; now exists (n, v)).
    rewrite Hnew in Hin. apply in_rev in Hin. apply existsb_str_in in Hin. congruence.
Qed.

(** C5, as amended.  On a matching path, a field of the target template
    whose name is not a group of the derived pattern makes the call raise
    [KeyError] for the first such field, and nothing is returned.  A field
    that names a group of the pattern never raises: a group that took no
    part in the match is rendered as [None].  When no group of the pattern
    is optional, every group takes part, so that a name that was not
    captured is a name that is no group. *)
Theorem get_juju_api_url_missing_field path0 src d ns caps tps :
  re_compile (pattern src) = Val ns ->
  search ns path0 = Some caps ->
  forallb fpiece_ok tps = true ->
  (fields_named ns tps = false ->
     exists front k back,
       tps = front ++ FField k :: back
       /\ fields_named ns front = true /\ ~ In k (node_names ns)
       /\ get_juju_api_url path0 src (target_of tps) d = Raised (KeyError k))
  /\ (fields_named ns tps = true ->
        get_juju_api_url path0 src (target_of tps) d
        = Val (flat_map (fpiece_render (groupdict ns caps)) tps))
  /\ (no_optional ns = true -> fields_captured caps tps = fields_named ns tps).
Proof.
  intros Hc Hs Hok.
  rewrite (get_juju_api_url_unfold _ _ _ _ _ Hc), Hs. split; [|split].
  - intros Hf. rewrite <- (fields_bound_named ns caps) in Hf.
    destruct (format_first_missing _ _ Hok Hf) as (front & k & back & E & Hfr & Hl & Hk).
    exists front, k, back. rewrite fields_bound_named in Hfr. repeat split; auto.
    intros Hn. rewrite lookup_groupdict in Hl. apply existsb_str_in in Hn.
    rewrite Hn in Hl. discriminate.
  - intros Hf. rewrite <- (fields_bound_named ns caps) in Hf.
    now apply format_render.
  - intros Hno. now apply fields_captured_named with (s := path0).
Qed.

Lemma get_juju_api_url_missing_field_witness :
  exists front k back,
    [FField "server"; FText ":"; FField "port"; FText "/"; FField "uuid"]
    = front ++ FField k :: back
    /\ fields_named (nodes_of [TLit "/"; TServer]) front = true
    /\ ~ In k (node_names (nodes_of [TLit "/"; TServer]))
    /\ get_juju_api_url "/host" "/$server"
         (target_of [FField "server"; FText ":"; FField "port"; FText "/"; FField "uuid"]) ""
       = Raised (KeyError k).
Proof.
  refine (proj1 (get_juju_api_url_missing_field "/host" "/$server" ""
                   (nodes_of [TLit "/"; TServer])
                   [(list_ascii_of_string "server", list_ascii_of_string "host")]
                   [FField "server"; FText ":"; FField "port"; FText "/"; FField "uuid"]
                   _ _ _) _); vm_compute; reflexivity.
Defined.

(** C5, as stated, fails: with a source template that makes [$port]
    optional, the port group takes no part in the match of this path, and
    the target that refers to it is returned with the text [None] in its
    place, without any error. *)
Lemma get_juju_api_url_none_field :
  re_search (pattern "/api/$server$port?") "/api/h"
  = Val (Some [(list_ascii_of_string "server", list_ascii_of_string "h")])
  /\ get_juju_api_url "/api/h" "/api/$server$port?" "wss://{server}:{port}/" "none"
     = Val (list_ascii_of_string "wss://h:None/").
Proof. split; vm_compute; reflexivity. Qed.

Lemma app_split_offsets {A} (pre t pre1 t1 : list A) :
  pre ++ t = pre1 ++ t1 ->
  List.length pre1 <= List.length pre
  \/ exists x, x <> [] /\ pre1 = pre ++ x /\ t = x ++ t1.
Proof.
  revert pre1. induction pre as [|c pre IH]; intros [|d pre1] E; cbn [app] in E.
  - left. simpl. lia.
  - right. exists (d :: pre1). repeat split; auto. discriminate.
  - left. simpl. lia.
  - injection E as <- E. destruct (IH _ E) as [H|(x & Hx & -> & ->)].
    + left. simpl. lia.
    + right. exists x. auto.
Qed.

(** C6, as amended.  The pattern is searched for, not anchored: when it
    matches somewhere in the path, after any prefix, the call does not fall
    back to the default but returns the target formatted with the captures
    of the match at the leftmost offset that has one, an offset that is not
    after the given one; these captures are a reading of the pattern there.
    When the given offset is itself the leftmost one with a match, they are
    the captures of the match at that offset. *)
Theorem get_juju_api_url_searches src ns pre t tps d caps :
  re_compile (pattern src) = Val ns ->
  match_here ns t = Some caps ->
  forallb fpiece_ok tps = true ->
  fields_named ns tps = true ->
  (exists pre1 t1 p s' caps',
      pre ++ t = pre1 ++ t1 /\ List.length pre1 <= List.length pre
      /\ (forall a b, pre1 = a ++ b -> b <> [] -> match_here ns (b ++ t1) = None)
      /\ match_here ns t1 = Some caps'
      /\ t1 = p ++ s' /\ nodes_read ns p s' [] caps'
      /\ get_juju_api_url (pre ++ t) src (target_of tps) d
         = Val (flat_map (fpiece_render (groupdict ns caps')) tps))
  /\ ((forall a b, pre = a ++ b -> b <> [] -> match_here ns (b ++ t) = None) ->
      get_juju_api_url (pre ++ t) src (target_of tps) d
      = Val (flat_map (fpiece_render (groupdict ns caps)) tps)).
Proof.
  intros Hc Hm Hok Hf. rewrite (get_juju_api_url_unfold _ _ _ _ _ Hc).
  assert (Hfmt : forall c, format (target_of tps) (groupdict ns c)
                           = Val (flat_map (fpiece_render (groupdict ns c)) tps)).
  { intros c. apply format_render; [assumption|]. now rewrite fields_bound_named. }
  split.
  - destruct (search_anywhere ns pre t caps Hm) as (caps' & E). rewrite E.
    pose proof E as E'.
    apply search_some in E' as (pre1 & t1 & E1 & Hm1 & Hleft).
    pose proof Hm1 as Hrun. apply match_here_some in Hrun as (s' & Hrun).
    apply nodes_runs_spec in Hrun as (p & Ep & Hrd).
    exists pre1, t1, p, s', caps'. repeat split; auto.
    destruct (app_split_offsets _ _ _ _ E1) as [Hle|(x & Hx & -> & ->)]; [assumption|].
    rewrite (Hleft pre x eq_refl Hx) in Hm. discriminate.
  - intros Hleft. now rewrite (search_leftmost ns pre t caps Hm Hleft).
Qed.

Lemma get_juju_api_url_searches_witness :
  get_juju_api_url (list_ascii_of_string "/ws" ++ list_ascii_of_string "/api/1.2.3.4/17070/uuid")
    doc_source (target_of [FField "server"; FText ":"; FField "port"; FText "/"; FField "uuid"]) ""
  = Val (list_ascii_of_string "1.2.3.4:17070/uuid").
Proof.
  refine (proj2 (get_juju_api_url_searches doc_source (nodes_of doc_pieces) "/ws"
              "/api/1.2.3.4/17070/uuid"
              [FField "server"; FText ":"; FField "port"; FText "/"; FField "uuid"] ""
              [(list_ascii_of_string "uuid", list_ascii_of_string "uuid");
               (list_ascii_of_string "port", list_ascii_of_string "17070");
               (list_ascii_of_string "server", list_ascii_of_string "1.2.3.4")]
              _ _ _ _) _).
  1-4: vm_compute; reflexivity.
  intros a b E Hb.
  destruct a as [|a0 [|a1 [|a2 a]]]; cbn [app list_ascii_of_string string_of_list_ascii] in E.
  - subst b. vm_compute. reflexivity.
  - injection E as <- <-. vm_compute. reflexivity.
  - injection E as <- <- <-. vm_compute. reflexivity.
  - injection E as <- <- <- E. destruct a; [|discriminate]. cbn [app] in E. congruence.
Defined.

(** C6, as stated, fails: the text that follows the tenth character of
    this path matches the pattern, with the server [c], but the match found
    starts at the beginning of the path and its server text, [a/1/b/api/c],
    is not taken from that text. *)
Lemma get_juju_api_url_not_that_substring :
  match_here (nodes_of doc_pieces) "/api/c/2/d"
  = Some [(list_ascii_of_string "uuid", list_ascii_of_string "d");
          (list_ascii_of_string "port", list_ascii_of_string "2");
          (list_ascii_of_string "server", list_ascii_of_string "c")]
  /\ get_juju_api_url
       (list_ascii_of_string "/api/a/1/b" ++ list_ascii_of_string "/api/c/2/d")
       doc_source "{server}|{port}|{uuid}" ""
     = Val (list_ascii_of_string "a/1/b/api/c|2|d").
Proof. split; vm_compute; reflexivity. Qed.




(** ** The pattern cache is not observable *)

Lemma cache_get_coherent p c ns :
  coherent c -> cache_get p c = Some ns -> re_compile p = Val ns.
Proof.
  unfold coherent. induction c as [|[p' ns'] c IH]; simpl; [discriminate|].
  intros H. inversion H as [|? ? He Hc]; subst. simpl in He.
  destruct (str_eqb p p') eqn:E.
  - apply str_eqb_eq in E. subst p'. intros E'. injection E' as <-. exact He.
  - now apply IH.
Qed.

Lemma re_compile_cached_spec p c :
  coherent c ->
  fst (re_compile_cached p c) = re_compile p /\ coherent (snd (re_compile_cached p c)).
Proof.
  intros Hc. unfold re_compile_cached.
  destruct (cache_get p c) as [ns|] eqn:Eg.
  - simpl. split; [symmetry; now apply (cache_get_coherent p c)|assumption].
  - destruct (re_compile p) as [ns|e|] eqn:Er; cbn [fst snd]; auto.
    split; auto. constructor; [exact Er|].
    destruct (Nat.leb MAXCACHE (List.length c)); [constructor|assumption].
Qed.

(** C8.  Whatever the cache of compiled patterns holds, the call answers
    what the function of its four arguments answers, and leaves the cache
    coherent: a second call with the same arguments, made after the first
    one, gives the same answer. *)
Theorem get_juju_api_url_deterministic path0 src tgt d c :
  coherent c ->
  fst (get_juju_api_url_cached path0 src tgt d c) = get_juju_api_url path0 src tgt d
  /\ coherent (snd (get_juju_api_url_cached path0 src tgt d c))
  /\ fst (get_juju_api_url_cached path0 src tgt d
            (snd (get_juju_api_url_cached path0 src tgt d c)))
     = fst (get_juju_api_url_cached path0 src tgt d c).
Proof.
  assert (Hone : forall c', coherent c' ->
            fst (get_juju_api_url_cached path0 src tgt d c') = get_juju_api_url path0 src tgt d
            /\ coherent (snd (get_juju_api_url_cached path0 src tgt d c'))).
  { intros c' Hc'. unfold get_juju_api_url_cached, get_juju_api_url.
    destruct (re_compile_cached_spec (pattern src) c' Hc') as [H1 H2].
    destruct (re_compile_cached (pattern src) c') as [r c'']. simpl in *.
    subst r. split; auto; destruct (re_compile (pattern src)); reflexivity. }
  intros Hc. destruct (Hone c Hc) as [H1 H2]. destruct (Hone _ H2) as [H3 _].
  repeat split; auto. congruence.
Qed.

Lemma get_juju_api_url_deterministic_witness :
  fst (get_juju_api_url_cached "/api/10.0.0.5/17070/abcd-1234" doc_source doc_target ""
         [(list_ascii_of_string "/x", [lit_node "/"; lit_node "x"])])
  = get_juju_api_url "/api/10.0.0.5/17070/abcd-1234" doc_source doc_target "".
Proof.
  apply (get_juju_api_url_deterministic "/api/10.0.0.5/17070/abcd-1234" doc_source doc_target ""
           [(list_ascii_of_string "/x", [lit_node "/"; lit_node "x"])]).
  constructor; [reflexivity|constructor].
Defined.

(** ** [json_decode_dict] *)



(** ** [ws_to_http] *)

Lemma has_in c s : has c s = true <-> In c s.
Proof.
  unfold has. rewrite existsb_exists. split.
  - intros (x & Hx & E). apply Ascii.eqb_eq in E. now subst.
  - intros H. exists c. split; auto. apply Ascii.eqb_refl.
Qed.

Lemma before_in c s x : In x (before c s) -> In x s /\ x <> c.
Proof.
  induction s as [|d s IH]; simpl; [tauto|].
  destruct (Ascii.eqb d c) eqn:E; simpl; [tauto|].
  intros [<-|H]; [|split; [right|]; now apply IH].
  split; [now left|]. now apply Ascii.eqb_neq.
Qed.

Lemma splitnetloc_in s x : In x (fst (splitnetloc s)) -> is_netloc_end x = false.
Proof.
  induction s as [|c s IH]; simpl; [tauto|].
  destruct (is_netloc_end c) eqn:E; simpl; [tauto|].
  destruct (splitnetloc s) as [dom r]. simpl in *. intros [<-|H]; auto.
Qed.

Lemma urlsplit_no_query url parts x :
  urlsplit url = Val parts ->
  In x (netloc parts ++ path parts) -> x <> "?"%char /\ x <> "#"%char.
Proof.
  unfold urlsplit.
  destruct (if has ":" url && negb (startswith ":" url) then _ else _) as [sch url1].
  destruct (if startswith "//" url1 then _ else _) as [loc url2] eqn:El.
  destruct (xorb (has "[" loc) (has "]" loc)); [discriminate|].
  destruct (if has "#" url2 then _ else _) as [url3 frag] eqn:E3.
  destruct (if has "?" url3 then _ else _) as [url4 qry] eqn:E4.
  intros E. injection E as <-. cbn [netloc path]. intros Hin.
  apply in_app_or in Hin as [Hin|Hin].
  - destruct (startswith "//" url1).
    + assert (Hloc : loc = fst (splitnetloc (skipn 2 url1))) by now rewrite El.
      rewrite Hloc in Hin. apply splitnetloc_in in Hin.
      unfold is_netloc_end in Hin. apply orb_false_elim in Hin as [Hin H3].
      apply orb_false_elim in Hin as [_ H2].
      split; now apply Ascii.eqb_neq.
    + injection El as <- _. destruct Hin.
  - assert (H3 : forall y, In y url3 -> y <> "#"%char).
    { intros y Hy. destruct (has "#" url2) eqn:Eh.
      - injection E3 as <- _. now apply before_in in Hy.
      - injection E3 as <- _. intros ->. apply has_in in Hy. congruence. }
    destruct (has "?" url3) eqn:Eh.
    + injection E4 as <- _. apply before_in in Hin as [Hin Hq]. split; auto.
    + injection E4 as <- _. split; auto.
      intros ->. apply has_in in Hin. congruence.
Qed.

(** With [urlsplit], an answer of [ws_to_http] holds no [?] and no [#]. *)
Lemma ws_to_http_drops_query url out :
  ws_to_http urlsplit url = Val out ->
  ~ In "?"%char out /\ ~ In "#"%char out.
Proof.
  unfold ws_to_http. destruct (urlsplit url) as [parts| |] eqn:E; try discriminate.
  cbn [bind].
  assert (Hrest : forall x, In x (netloc parts ++ path parts) -> x <> "?"%char /\ x <> "#"%char)
    by (intros x; now apply urlsplit_no_query with (url := url)).
  assert (Hgo : forall pre : str,
            ~ In "?"%char pre -> ~ In "#"%char pre ->
            ~ In "?"%char (pre ++ list_ascii_of_string "://" ++ netloc parts ++ path parts)
            /\ ~ In "#"%char (pre ++ list_ascii_of_string "://" ++ netloc parts ++ path parts)).
  { intros pre H1 H2. split; intros Hin;
      apply in_app_or in Hin as [Hin|Hin]; auto;
      apply in_app_or in Hin as [Hin|Hin];
      try (apply Hrest in Hin; tauto);
      simpl in Hin; repeat (destruct Hin as [Hin|Hin]; [discriminate|]); auto. }
  destruct (str_eqb (scheme parts) "ws").
  - cbn [bind]. intros E'. injection E' as <-.
    apply (Hgo (list_ascii_of_string "http")); simpl; intuition discriminate.
  - destruct (str_eqb (scheme parts) "wss"); [|discriminate].
    cbn [bind]. intros E'. injection E' as <-.
    apply (Hgo (list_ascii_of_string "https")); simpl; intuition discriminate.
Qed.

Lemma before_app c a t : ~ In c a -> before c (a ++ c :: t) = a.
Proof.
  induction a as [|d a IH]; intros H; cbn [app before].
  - now rewrite Ascii.eqb_refl.
  - destruct (Ascii.eqb d c) eqn:E.
    + apply Ascii.eqb_eq in E. subst. destruct H. now left.
    + f_equal. apply IH. intros Hin. apply H. now right.
Qed.

Lemma after_app c a t : ~ In c a -> after c (a ++ c :: t) = t.
Proof.
  induction a as [|d a IH]; intros H; cbn [app after].
  - now rewrite Ascii.eqb_refl.
  - destruct (Ascii.eqb d c) eqn:E.
    + apply Ascii.eqb_eq in E. subst. destruct H. now left.
    + apply IH. intros Hin. apply H. now right.
Qed.
Lemma before_absent c s : ~ In c s -> before c s = s.
Proof.
  induction s as [|d s IH]; intros H; [reflexivity|]. cbn [before].
  destruct (Ascii.eqb d c) eqn:E.
  - apply Ascii.eqb_eq in E. subst. destruct H. now left.
  - f_equal. apply IH. intros Hin. apply H. now right.
Qed.

Lemma after_absent c s : ~ In c s -> after c s = [].
Proof.
  induction s as [|d s IH]; intros H; [reflexivity|]. cbn [after].
  destruct (Ascii.eqb d c) eqn:E.
  - apply Ascii.eqb_eq in E. subst. destruct H. now left.
  - apply IH. intros Hin. apply H. now right.
Qed.
Lemma splitnetloc_app loc r :
  forallb (fun c => negb (is_netloc_end c)) loc = true ->
  match r with [] => true | c :: _ => is_netloc_end c end = true ->
  splitnetloc (loc ++ r) = (loc, r).
Proof.
  intros Hloc Hr. induction loc as [|c loc IH]; cbn [app].
  - destruct r as [|c r]; [reflexivity|]. cbn [splitnetloc]. now rewrite Hr.
  - cbn [forallb] in Hloc. apply andb_prop in Hloc as [Hc Hloc].
    apply negb_true_iff in Hc. cbn [splitnetloc]. rewrite Hc, IH by assumption.
    reflexivity.
Qed.

Lemma before_app_absent c a s : ~ In c a -> before c (a ++ s) = a ++ before c s.
Proof.
  induction a as [|d a IH]; intros H; [reflexivity|]. cbn [app before].
  destruct (Ascii.eqb d c) eqn:E.
  - apply Ascii.eqb_eq in E. subst. destruct H. now left.
  - f_equal. apply IH. intros Hin. apply H. now right.
Qed.
Lemma path_before_tail p tail :
  has "?" p = false -> has "#" p = false ->
  match tail with [] => true | c :: _ => Ascii.eqb c "?" || Ascii.eqb c "#" end = true ->
  before "?" (before "#" (p ++ tail)) = p.
Proof.
  intros Hq Hf Ht.
  assert (Hnq : ~ In "?"%char p) by (intros Hc; apply has_in in Hc; congruence).
  assert (Hnf : ~ In "#"%char p) by (intros Hc; apply has_in in Hc; congruence).
  destruct tail as [|c t].
  - rewrite app_nil_r. now rewrite (before_absent "#"), (before_absent "?").
  - apply orb_prop in Ht as [E|E]; apply Ascii.eqb_eq in E; subst c.
    + rewrite before_app_absent by assumption. cbn [before].
      change (Ascii.eqb "?" "#") with false. cbv iota.
      now apply before_app.
    + rewrite before_app by assumption. now apply before_absent.
Qed.

Lemma scheme_chars_plain sch c :
  forallb is_scheme_char sch = true -> is_scheme_char c = false -> ~ In c sch.
Proof.
  intros H Hc Hin. rewrite forallb_forall in H. apply H in Hin. congruence.
Qed.

Lemma lower_http sch : str_eqb sch "http" = true -> map lower sch = sch.
Proof. intros E. apply str_eqb_eq in E. subst. reflexivity. Qed.

(** What [urlsplit] answers on a URL that opens with a scheme and [://]:
    the scheme is put in lower case. *)
Lemma urlsplit_scheme sch r :
  sch <> [] -> forallb is_scheme_char sch = true ->
  urlsplit (sch ++ list_ascii_of_string "://" ++ r)
  = if xorb (has "[" (fst (splitnetloc r))) (has "]" (fst (splitnetloc r)))
    then Raised ValueError
    else Val {| scheme := map lower sch;
                netloc := fst (splitnetloc r);
                path := before "?" (before "#" (snd (splitnetloc r)));
                query := after "?" (before "#" (snd (splitnetloc r)));
                fragment := after "#" (snd (splitnetloc r)) |}.
Proof.
  intros Hne Hsc.
  assert (Hcolon : ~ In ":"%char sch) by (apply scheme_chars_plain; auto).
  change (list_ascii_of_string "://" ++ r) with (":"%char :: "/"%char :: "/"%char :: r).
  unfold urlsplit.
  assert (Hhas : has ":" (sch ++ ":"%char :: "/"%char :: "/"%char :: r) = true).
  { apply has_in, in_or_app. right. now left. }
  assert (Hst : startswith ":" (sch ++ ":"%char :: "/"%char :: "/"%char :: r) = false).
  { destruct sch as [|c sch]; [congruence|]. cbn [app list_ascii_of_string startswith].
    destruct (Ascii.eqb ":" c) eqn:E; [|reflexivity].
    apply Ascii.eqb_eq in E. subst c. destruct Hcolon. now left. }
  rewrite Hhas, Hst, before_app, after_app by assumption. cbn [andb negb].
  match goal with
  | |- (let (_, _) := ?X in _) = _ =>
      assert (E1 : X = (map lower sch, "/"%char :: "/"%char :: r))
  end.
  { destruct (str_eqb sch "http") eqn:Eh; [now rewrite (lower_http _ Eh)|].
    rewrite Hsc. reflexivity. }
  rewrite E1.
  change (startswith "//" ("/"%char :: "/"%char :: r)) with true.
  change (skipn 2 ("/"%char :: "/"%char :: r)) with r. cbv iota.
  destruct (splitnetloc r) as [loc url2]. cbn [fst snd].
  destruct (xorb (has "[" loc) (has "]" loc)); [reflexivity|].
  assert (Hcut : forall c u, (if has c u then (before c u, after c u) else (u, []))
                             = (before c u, after c u)).
  { intros c u. destruct (has c u) eqn:Eh; [reflexivity|].
    assert (~ In c u) by (intros Hc; apply has_in in Hc; congruence).
    now rewrite before_absent, after_absent. }
  now rewrite !Hcut.
Qed.

(** [urlsplit] raises nothing but [ValueError], and answers on every
    other URL. *)
Lemma urlsplit_total url :
  urlsplit url = Raised ValueError \/ exists parts, urlsplit url = Val parts.
Proof.
  unfold urlsplit.
  destruct (if has ":" url && negb (startswith ":" url) then _ else _) as [sch url1].
  destruct (if startswith "//" url1 then _ else _) as [loc url2].
  destruct (xorb (has "[" loc) (has "]" loc)); [now left|].
  destruct (if has "#" url2 then _ else _) as [url3 frag].
  destruct (if has "?" url3 then _ else _) as [url4 qry].
  right. eauto.
Qed.

(** C10, as amended.  On a URL made of a scheme, [://], a network location,
    a path and possibly a query or a fragment, [ws_to_http] compares the
    scheme in lower case: it answers [http://] for [ws] and [https://] for
    [wss], followed by the network location and the path, without the query
    and the fragment, and raises [KeyError] for any other scheme, unless
    the network location holds a square bracket of one kind only, which
    makes [urlsplit] raise [ValueError] whatever the scheme is.  On every
    URL the call returns such an answer, with no [?] and no [#] in it, or
    raises [ValueError], or raises [KeyError] with a scheme that is neither
    [ws] nor [wss]. *)
Theorem ws_to_http_spec sch loc p tail :
  sch <> [] -> forallb is_scheme_char sch = true ->
  forallb (fun c => negb (is_netloc_end c)) loc = true ->
  match p with [] => true | c :: _ => Ascii.eqb c "/" end = true ->
  has "?" p = false -> has "#" p = false ->
  match tail with [] => true | c :: _ => Ascii.eqb c "?" || Ascii.eqb c "#" end = true ->
  ws_to_http urlsplit (sch ++ list_ascii_of_string "://" ++ loc ++ p ++ tail)
  = (if xorb (has "[" loc) (has "]" loc) then Raised ValueError
     else if str_eqb (map lower sch) "ws"
     then Val (list_ascii_of_string "http://" ++ loc ++ p)
     else if str_eqb (map lower sch) "wss"
     then Val (list_ascii_of_string "https://" ++ loc ++ p)
     else Raised (KeyError (map lower sch)))
  /\ forall url,
       (exists parts out,
           urlsplit url = Val parts /\ ws_to_http urlsplit url = Val out
           /\ (scheme parts = list_ascii_of_string "ws"
               /\ out = list_ascii_of_string "http://" ++ netloc parts ++ path parts
               \/ scheme parts = list_ascii_of_string "wss"
                  /\ out = list_ascii_of_string "https://" ++ netloc parts ++ path parts)
           /\ ~ In "?"%char out /\ ~ In "#"%char out)
       \/ (urlsplit url = Raised ValueError /\ ws_to_http urlsplit url = Raised ValueError)
       \/ (exists parts,
             urlsplit url = Val parts
             /\ ws_to_http urlsplit url = Raised (KeyError (scheme parts))
             /\ scheme parts <> list_ascii_of_string "ws"
             /\ scheme parts <> list_ascii_of_string "wss").
Proof.
  intros Hne Hsc Hloc Hp Hq Hf Ht. split.
  - assert (Hrest : match p ++ tail with [] => true | c :: _ => is_netloc_end c end = true).
    { unfold is_netloc_end. destruct p as [|c p]; cbn [app].
      - destruct tail as [|c t]; [reflexivity|]. now rewrite <- orb_assoc, Ht, orb_true_r.
      - now rewrite Hp. }
    unfold ws_to_http. rewrite urlsplit_scheme by assumption.
    rewrite (splitnetloc_app loc (p ++ tail) Hloc Hrest). cbn [fst snd].
    destruct (xorb (has "[" loc) (has "]" loc)); [reflexivity|].
    cbn [bind scheme netloc path]. rewrite (path_before_tail p tail Hq Hf Ht).
    destruct (str_eqb (map lower sch) "ws"); [reflexivity|].
    destruct (str_eqb (map lower sch) "wss"); reflexivity.
  - intros url. destruct (urlsplit_total url) as [E|(parts & E)].
    + right. left. split; [assumption|]. unfold ws_to_http. now rewrite E.
    + pose proof (ws_to_http_drops_query url) as Hdrop.
      unfold ws_to_http in *. rewrite E in *. cbn [bind] in *.
      destruct (str_eqb (scheme parts) "ws") eqn:E1.
      * left. apply str_eqb_eq in E1. exists parts. eexists.
        split; [reflexivity|]. split; [reflexivity|]. split; [left; now split|].
        now apply Hdrop.
      * destruct (str_eqb (scheme parts) "wss") eqn:E2.
        -- left. apply str_eqb_eq in E2. exists parts. eexists.
           split; [reflexivity|]. split; [reflexivity|]. split; [right; now split|].
           now apply Hdrop.
        -- right. right. exists parts. repeat split.
           ++ intros H. rewrite H in E1. discriminate.
           ++ intros H. rewrite H in E2. discriminate.
Qed.

Lemma ws_to_http_spec_witness :
  ws_to_http urlsplit
    (list_ascii_of_string "WSS" ++ list_ascii_of_string "://"
     ++ list_ascii_of_string "Example.com:17070" ++ list_ascii_of_string "/ws"
     ++ list_ascii_of_string "?x=1#top")
  = Val (list_ascii_of_string "https://" ++ list_ascii_of_string "Example.com:17070"
         ++ list_ascii_of_string "/ws").
Proof.
  refine (proj1 (ws_to_http_spec "WSS" "Example.com:17070" "/ws" "?x=1#top"
                   _ _ _ _ _ _ _)); try reflexivity.
  discriminate.
Defined.

(** C10, as stated, fails: the scheme of this URL is [http], neither [ws]
    nor [wss], and the call raises the [ValueError] of [urlsplit], which
    rejects the network location, not [KeyError]. *)
Lemma ws_to_http_not_key_error :
  ws_to_http urlsplit "http://[::1/ws" = Raised ValueError
  /\ ws_to_http urlsplit "http://host/ws" = Raised (KeyError "http").
Proof. split; vm_compute; reflexivity. Qed.

(** ** [join_url] *)

Lemma lstrip_repeat c n s : lstrip c (repeat c n ++ s) = lstrip c s.
Proof.
  induction n as [|n IH]; [reflexivity|].
  cbn [repeat app lstrip]. now rewrite Ascii.eqb_refl.
Qed.

Lemma lstrip_idem c s : lstrip c (lstrip c s) = lstrip c s.
Proof.
  induction s as [|d s IH]; [reflexivity|].
  cbn [lstrip]. destruct (Ascii.eqb d c) eqn:E; [exact IH|].
  cbn [lstrip]. now rewrite E.
Qed.

Lemma rev_repeat_same (c : ascii) n : rev (repeat c n) = repeat c n.
Proof.
  induction n as [|n IH]; [reflexivity|].
  cbn [repeat rev]. rewrite IH. symmetry. apply repeat_cons.
Qed.

Lemma rstrip_repeat c n s : rstrip c (s ++ repeat c n) = rstrip c s.
Proof.
  unfold rstrip. now rewrite rev_app_distr, rev_repeat_same, lstrip_repeat.
Qed.

Lemma lstrip_in c s x : In x (lstrip c s) -> In x s.
Proof.
  induction s as [|d s IH]; [auto|].
  cbn [lstrip]. destruct (Ascii.eqb d c); [right; auto|auto].
Qed.

Lemma rstrip_in c s x : In x (rstrip c s) -> In x s.
Proof.
  unfold rstrip. intros H. apply in_rev in H. apply lstrip_in in H. now apply in_rev.
Qed.

(** X1.  Slashes at the junction do not count: any number of slashes at
    the end of the base URL and at the start of the path give the same
    URL. *)
Theorem join_url_slashes base path0 qry n m :
  join_url (base ++ repeat "/"%char n) (repeat "/"%char m ++ path0) qry
  = join_url base path0 qry.
Proof.
  unfold join_url. now rewrite rstrip_repeat, lstrip_repeat.
Qed.

(** X2.  Joining first the empty path, then a path, is joining the path:
    the URL that [join_url] builds for a base can be used as a base. *)
Theorem join_url_base_again base path0 qry :
  join_url (join_url base [] []) path0 qry = join_url base path0 qry.
Proof.
  unfold join_url. cbn [lstrip app]. f_equal.
  unfold rstrip. rewrite rev_app_distr. cbn [rev app lstrip].
  rewrite Ascii.eqb_refl, rev_involutive, lstrip_idem. reflexivity.
Qed.

(** X3.  When neither the base URL nor the path holds a question mark, the
    query is what follows the first question mark of the joined URL, and
    what precedes it is the URL joined without a query. *)
Theorem join_url_query base path0 qry :
  has "?" base = false -> has "?" path0 = false ->
  after "?" (join_url base path0 qry) = qry
  /\ before "?" (join_url base path0 qry) = join_url base path0 [].
Proof.
  intros Hb Hp.
  assert (Hno : ~ In "?"%char (rstrip "/" base ++ "/"%char :: lstrip "/" path0)).
  { intros Hin. apply in_app_or in Hin as [Hin|[Hin|Hin]].
    - apply rstrip_in, has_in in Hin. congruence.
    - discriminate.
    - apply lstrip_in, has_in in Hin. congruence. }
  unfold join_url. rewrite app_nil_r.
  change (rstrip "/" base ++ "/"%char :: lstrip "/" path0 ++ ?q)
    with (rstrip "/" base ++ ("/"%char :: lstrip "/" path0) ++ q).
  rewrite !app_assoc. destruct qry as [|c qry].
  - rewrite app_nil_r. split; [now apply after_absent|now apply before_absent].
  - split; [now apply after_app|now apply before_app].
Qed.

Lemma join_url_query_witness :
  after "?" (join_url "http://example.com/" "/charm" "a=1&b=2")
  = list_ascii_of_string "a=1&b=2".
Proof.
  apply (join_url_query "http://example.com/" "/charm" "a=1&b=2"); reflexivity.
Defined.

(** ** [request_summary] *)

Lemma split_at_first (c : ascii) : forall a b x y,
  ~ In c a -> ~ In c b -> a ++ c :: x = b ++ c :: y -> a = b /\ x = y.
Proof.
  induction a as [|d a IH]; intros [|e b] x y Ha Hb E; cbn [app] in E.
  - injection E as ->. auto.
  - injection E as <- _. destruct Hb. now left.
  - injection E as -> _. destruct Ha. now left.
  - injection E as -> E. destruct (IH b x y) as [-> ->]; auto.
    + intros H. apply Ha. now right.
    + intros H. apply Hb. now right.
Qed.

(** X4.  The summary tells requests apart: two requests whose methods and
    URIs hold no space and have the same summary have the same method, the
    same URI and the same remote address. *)
Theorem request_summary_injective r1 r2 :
  has " " (method r1) = false -> has " " (uri r1) = false ->
  has " " (method r2) = false -> has " " (uri r2) = false ->
  request_summary r1 = request_summary r2 ->
  method r1 = method r2 /\ uri r1 = uri r2 /\ remote_ip r1 = remote_ip r2.
Proof.
  intros Hm1 Hu1 Hm2 Hu2 E. unfold request_summary in E. cbn [list_ascii_of_string app] in E.
  assert (Hno : forall s, has " " s = false -> ~ In " "%char s)
    by (intros s H Hin; apply has_in in Hin; congruence).
  apply split_at_first in E as [Em E]; auto.
  apply split_at_first in E as [Eu E]; auto.
  injection E as E. apply app_inv_tail in E. auto.
Qed.

Lemma request_summary_injective_witness :
  let r1 := {| method := "GET"; uri := "/ws"; remote_ip := "10.0.0.1";
               headers := []; body := [] |} in
  let r2 := {| method := "GET"; uri := "/ws"; remote_ip := "10.0.0.1";
               headers := [(list_ascii_of_string "Origin", list_ascii_of_string "http://gui")];
               body := "{}" |} in
  method r1 = method r2 /\ uri r1 = uri r2 /\ remote_ip r1 = remote_ip r2.
Proof.
  intros r1 r2. apply (request_summary_injective r1 r2); reflexivity.
Defined.

(** ** [wrap_write_message] *)

(** X5.  The wrapped function never writes to a handler that is gone or
    not connected: every datum is then discarded with one warning and the
    handler is left as it was; on a connected handler every datum is
    written, in order, as its JSON encoding, without a warning. *)
Theorem wrapped_all_spec json_encode handler_ref ds :
  wrapped_all json_encode handler_ref ds
  = match handler_ref with
    | None => (None, map DiscardingMessage ds)
    | Some h =>
        if connected h
        then (Some {| connected := true; written := written h ++ map json_encode ds |}, [])
        else (Some h, map DiscardingMessage ds)
    end.
Proof.
  revert handler_ref. induction ds as [|d ds IH]; intros [h|]; cbn [wrapped_all map].
  - destruct h as [[] w]; cbn [connected written]; now rewrite ?app_nil_r.
  - reflexivity.
  - unfold wrap_write_message. destruct h as [[] w]; cbn [connected written negb].
    + rewrite IH. unfold write_message. cbn [connected written].
      now rewrite <- app_assoc.
    + rewrite IH. reflexivity.
  - cbn [wrap_write_message]. rewrite IH. reflexivity.
Qed.

(** ** [get_headers] *)

(** X6.  A request that carries an [Origin] header gets it back, whatever
    the WebSocket URL is: the URL is not even split.  Without the header,
    whatever [get_headers] returns with [urlsplit] is the single header
    [Origin], an [http://] or [https://] URL without query or fragment. *)
Theorem get_headers_origin req url :
  (forall split o, lookup "Origin" (headers req) = Some o ->
     get_headers split req url = Val [(list_ascii_of_string "Origin", o)])
  /\ (forall h, lookup "Origin" (headers req) = None ->
        get_headers urlsplit req url = Val h ->
        exists o, h = [(list_ascii_of_string "Origin", o)]
                  /\ (startswith "http://" o = true \/ startswith "https://" o = true)
                  /\ ~ In "?"%char o /\ ~ In "#"%char o).
Proof.
  split.
  - intros split o H. unfold get_headers. now rewrite H.
  - intros h H. unfold get_headers. rewrite H.
    destruct (ws_to_http urlsplit url) as [o| |] eqn:E; cbn [bind]; try discriminate.
    intros Eh. injection Eh as <-. exists o. split; [reflexivity|].
    split; [|now apply ws_to_http_drops_query with (url := url)].
    unfold ws_to_http in E. destruct (urlsplit url) as [parts| |]; try discriminate.
    cbn [bind] in E. destruct (str_eqb (scheme parts) "ws").
    + cbn [bind] in E. injection E as <-. now left.
    + destruct (str_eqb (scheme parts) "wss"); [|discriminate].
      cbn [bind] in E. injection E as <-. now right.
Qed.

(** ** [ws_to_http] with [urlsplit] *)

(** What [urlsplit] answers on a URL that opens with one of the four
    schemes and [://]. *)
Lemma urlsplit_known_scheme sch r :
  In sch (map list_ascii_of_string ["ws"; "wss"; "http"; "https"]) ->
  urlsplit (sch ++ list_ascii_of_string "://" ++ r)
  = if xorb (has "[" (fst (splitnetloc r))) (has "]" (fst (splitnetloc r)))
    then Raised ValueError
    else Val {| scheme := sch;
                netloc := fst (splitnetloc r);
                path := before "?" (before "#" (snd (splitnetloc r)));
                query := after "?" (before "#" (snd (splitnetloc r)));
                fragment := after "#" (snd (splitnetloc r)) |}.
Proof.
  intros Hin.
  assert (E : urlsplit (sch ++ list_ascii_of_string "://" ++ r)
              = let (loc, url2) := splitnetloc r in
                if xorb (has "[" loc) (has "]" loc) then Raised ValueError
                else
                  let (url3, frag) :=
                    if has "#" url2 then (before "#" url2, after "#" url2) else (url2, []) in
                  let (url4, qry) :=
                    if has "?" url3 then (before "?" url3, after "?" url3) else (url3, []) in
                  Val {| scheme := sch; netloc := loc; path := url4;
                         query := qry; fragment := frag |}).
  { cbn [map In] in Hin. destruct Hin as [<-|[<-|[<-|[<-|[]]]]]; reflexivity. }
  rewrite E. destruct (splitnetloc r) as [loc url2]. cbn [fst snd].
  destruct (xorb (has "[" loc) (has "]" loc)); [reflexivity|].
  assert (Hcut : forall c u, (if has c u then (before c u, after c u) else (u, []))
                             = (before c u, after c u)).
  { intros c u. destruct (has c u) eqn:Eh; [reflexivity|].
    assert (~ In c u) by (intros Hc; apply has_in in Hc; congruence).
    now rewrite before_absent, after_absent. }
  now rewrite !Hcut.
Qed.

(** X7.  On a WebSocket URL made of the scheme, [://], a network location
    and a path, possibly followed by a query or a fragment, [ws_to_http]
    answers the same URL under the [http] (or [https]) scheme, without the
    query and the fragment. *)
Theorem ws_to_http_swaps_scheme (secure : bool) loc p tail :
  forallb (fun c => negb (is_netloc_end c)) loc = true ->
  xorb (has "[" loc) (has "]" loc) = false ->
  match p with [] => true | c :: _ => Ascii.eqb c "/" end = true ->
  has "?" p = false -> has "#" p = false ->
  match tail with [] => true | c :: _ => Ascii.eqb c "?" || Ascii.eqb c "#" end = true ->
  ws_to_http urlsplit
    (list_ascii_of_string (if secure then "wss" else "ws")
     ++ list_ascii_of_string "://" ++ loc ++ p ++ tail)
  = Val (list_ascii_of_string (if secure then "https" else "http")
         ++ list_ascii_of_string "://" ++ loc ++ p).
Proof.
  intros Hloc Hbr Hp Hq Hf Ht.
  assert (Hrest : match p ++ tail with [] => true | c :: _ => is_netloc_end c end = true).
  { unfold is_netloc_end. destruct p as [|c p]; cbn [app].
    - destruct tail as [|c t]; [reflexivity|]. now rewrite <- orb_assoc, Ht, orb_true_r.
    - now rewrite Hp. }
  unfold ws_to_http. rewrite urlsplit_known_scheme
    by (destruct secure; cbn [map In]; auto).
  rewrite (splitnetloc_app loc (p ++ tail) Hloc Hrest). cbn [fst snd]. rewrite Hbr.
  cbn [bind scheme netloc path]. rewrite (path_before_tail p tail Hq Hf Ht).
  destruct secure; reflexivity.
Qed.

Lemma ws_to_http_swaps_scheme_witness :
  ws_to_http urlsplit
    (list_ascii_of_string "wss" ++ list_ascii_of_string "://"
     ++ list_ascii_of_string "1.2.3.4:17070" ++ list_ascii_of_string "/ws/api"
     ++ list_ascii_of_string "?token=x#top")
  = Val (list_ascii_of_string "https" ++ list_ascii_of_string "://"
         ++ list_ascii_of_string "1.2.3.4:17070" ++ list_ascii_of_string "/ws/api").
Proof.
  apply (ws_to_http_swaps_scheme true "1.2.3.4:17070" "/ws/api" "?token=x#top");
    reflexivity.
Defined.

(** X8.  An answer of [ws_to_http] is never a WebSocket URL again: given
    back to [ws_to_http], it raises. *)
Theorem ws_to_http_answer_rejected url out :
  ws_to_http urlsplit url = Val out ->
  exists e, ws_to_http urlsplit out = Raised e.
Proof.
  intros H.
  assert (Hout : exists sch r,
            In sch (map list_ascii_of_string ["http"; "https"])
            /\ out = sch ++ list_ascii_of_string "://" ++ r).
  { unfold ws_to_http in H. destruct (urlsplit url) as [parts| |]; try discriminate.
    cbn [bind] in H. destruct (str_eqb (scheme parts) "ws").
    - cbn [bind] in H. injection H as <-.
      exists (list_ascii_of_string "http"), (netloc parts ++ path parts).
      split; [now left|reflexivity].
    - destruct (str_eqb (scheme parts) "wss"); [|discriminate].
      cbn [bind] in H. injection H as <-.
      exists (list_ascii_of_string "https"), (netloc parts ++ path parts).
      split; [right; now left|reflexivity]. }
  destruct Hout as (sch & r & Hsch & ->).
  unfold ws_to_http. rewrite urlsplit_known_scheme
    by (cbn [map In] in *; tauto).
  destruct (xorb _ _); [now exists ValueError|].
  cbn [bind scheme]. cbn [map In] in Hsch.
  destruct Hsch as [<-|[<-|[]]]; eexists; reflexivity.
Qed.

Lemma ws_to_http_answer_rejected_witness :
  exists e, ws_to_http urlsplit "http://example.com:8080/ws" = Raised e.
Proof.
  apply (ws_to_http_answer_rejected "ws://example.com:8080/ws?x=1#top").
  vm_compute. reflexivity.
Defined.

(** ** [get_juju_api_url]: further properties *)

Lemma match_here_lits l s :
  match_here (map lit_node l) s = if startswith l s then Some [] else None.
Proof.
  unfold match_here. rewrite <- (app_nil_r (map lit_node l)), nodes_runs_lits.
  destruct (startswith l s); reflexivity.
Qed.

Lemma search_lits l : forall s,
  search (map lit_node l) s = if contains l s then Some [] else None.
Proof.
  induction s as [|c s IH]; cbn [search contains]; rewrite match_here_lits.
  - destruct (startswith l []); reflexivity.
  - destruct (startswith l (c :: s)); [reflexivity|]. exact IH.
Qed.

Lemma re_compile_lits l :
  forallb (fun c => negb (is_special c)) l = true ->
  re_compile l = Val (map lit_node l).
Proof.
  intros H. unfold re_compile.
  pose proof (lex_ordinary_run l [] H) as Hl.
  change (lex None []) with (@nil token) in Hl. rewrite !app_nil_r in Hl.
  rewrite Hl, <- (app_nil_r (map TChar l)), parse_ordinary_run by reflexivity.
  cbn [parse]. now rewrite app_nil_r, rev_involutive.
Qed.

Lemma pattern_no_dollar l : ~ In "$"%char l -> pattern l = l.
Proof.
  intros H. unfold pattern.
  assert (Hc : forall x, contains ("$"%char :: x) l = false).
  { intros x. destruct (contains _ l) eqn:E; [|reflexivity].
    apply contains_head in E. tauto. }
  rewrite (replace_absent "$server") by apply Hc.
  rewrite (replace_absent "$port") by apply Hc.
  now rewrite (replace_absent "$uuid") by apply Hc.
Qed.

Lemma plain_no_dollar l :
  forallb (fun c => negb (is_special c)) l = true -> ~ In "$"%char l.
Proof.
  rewrite forallb_forall. intros H Hin. specialize (H _ Hin). discriminate.
Qed.

(** X9.  A source template of ordinary characters only, without a
    placeholder, is looked for as it is written: the target is formatted
    (with no captures) when the template occurs in the path, and the default
    is returned otherwise.  In particular the empty template never gives
    the default. *)
Theorem get_juju_api_url_literal_template path0 l tgt d :
  forallb (fun c => negb (is_special c)) l = true ->
  get_juju_api_url path0 l tgt d
  = if contains l path0 then format tgt [] else Val d.
Proof.
  intros H. unfold get_juju_api_url.
  rewrite pattern_no_dollar by now apply plain_no_dollar.
  rewrite re_compile_lits by assumption. cbn [bind]. rewrite search_lits.
  assert (Hnames : node_names (map lit_node l) = [])
    by (clear; induction l; simpl; auto).
  destruct (contains l path0); [|reflexivity].
  unfold groupdict. now rewrite Hnames.
Qed.

Lemma get_juju_api_url_literal_template_witness :
  get_juju_api_url "/ws/api/x" "/api" "wss://localhost:17070" "none"
  = Val (list_ascii_of_string "wss://localhost:17070").
Proof.
  rewrite (get_juju_api_url_literal_template "/ws/api/x" "/api" "wss://localhost:17070" "none");
    reflexivity.
Defined.

(** X10.  A source template that uses a placeholder twice makes every
    call raise the error of [re] for a group name defined twice: whatever
    the path is, neither the default nor a URL is returned. *)
Theorem get_juju_api_url_repeated_placeholder ps path0 tgt d :
  lits_ok ps = true -> plain_template ps = false ->
  get_juju_api_url path0 (template_of ps) tgt d = Raised ReError.
Proof.
  intros Hl Hp. unfold get_juju_api_url.
  now rewrite re_compile_repeated.
Qed.

Lemma get_juju_api_url_repeated_placeholder_witness :
  get_juju_api_url "/legacy/path"
    (template_of [TLit "/"; TServer; TLit "/"; TPort; TLit "/"; TServer]) doc_target "none"
  = Raised ReError.
Proof.
  apply (get_juju_api_url_repeated_placeholder
           [TLit "/"; TServer; TLit "/"; TPort; TLit "/"; TServer]);
    reflexivity.
Defined.

Lemma star_any_no_newline v rest :
  items_read [IStar AAny] v rest -> ~ In newline v.
Proof.
  intros H Hin. inversion H as [|i b p1 p2 r Hi Hnil]; subst.
  inversion Hnil; subst. rewrite app_nil_r in Hin.
  inversion Hi as [| a p r Hall | |]; subst.
  rewrite forallb_forall in Hall. specialize (Hall _ Hin).
  cbn [atom_ok] in Hall. now rewrite Ascii.eqb_refl in Hall.
Qed.

(** X11.  The texts captured for [$server] and for [$uuid] never hold a
    newline. *)
Theorem server_uuid_capture_one_line ps path0 caps :
  plain_template ps = true ->
  re_search (pattern (template_of ps)) path0 = Val (Some caps) ->
  (In TServer ps -> exists v, lookup "server" caps = Some v /\ ~ In newline v)
  /\ (In TUuid ps -> exists v, lookup "uuid" caps = Some v /\ ~ In newline v).
Proof.
  intros Hp Hs.
  apply re_search_some in Hs as (ns & Hc & Hsearch).
  rewrite (re_compile_template _ Hp) in Hc. injection Hc as <-.
  apply search_some in Hsearch as (pre & t & -> & Hm & _).
  apply match_here_some in Hm as (s' & Hrun).
  apply nodes_runs_spec in Hrun as (p & _ & Hrd).
  pose proof (plain_template_names _ Hp) as Hnd.
  split; intros Hin.
  - destruct (nodes_read_group_capture _ _ _ _ _ "server" [IStar AAny] Hrd Hnd
                (in_nodes_of TServer ps Hin)) as (v & rest' & Hv & Hbody).
    exists v. split; [assumption|]. now apply star_any_no_newline in Hbody.
  - destruct (nodes_read_group_capture _ _ _ _ _ "uuid" [IStar AAny] Hrd Hnd
                (in_nodes_of TUuid ps Hin)) as (v & rest' & Hv & Hbody).
    exists v. split; [assumption|]. now apply star_any_no_newline in Hbody.
Qed.

Lemma server_uuid_capture_one_line_witness :
  exists v, lookup "server"
              [(list_ascii_of_string "uuid", list_ascii_of_string "u");
               (list_ascii_of_string "port", list_ascii_of_string "1");
               (list_ascii_of_string "server", list_ascii_of_string "h")]
            = Some v /\ ~ In newline v.
Proof.
  assert (Hp : plain_template doc_pieces = true) by reflexivity.
  assert (Hs : re_search (pattern (template_of doc_pieces))
                 (list_ascii_of_string "/api/h/1/u" ++ [newline] ++ list_ascii_of_string "x")
               = Val (Some [(list_ascii_of_string "uuid", list_ascii_of_string "u");
                            (list_ascii_of_string "port", list_ascii_of_string "1");
                            (list_ascii_of_string "server", list_ascii_of_string "h")]))
    by (vm_compute; reflexivity).
  destruct (server_uuid_capture_one_line doc_pieces _ _ Hp Hs) as [H _].
  apply H. simpl. tauto.
Defined.

Lemma contains_infix v : forall a b, contains v (a ++ v ++ b) = true.
Proof.
  induction a as [|c a IH]; intros b.
  - cbn [app]. destruct (v ++ b) eqn:E; cbn [contains]; rewrite <- E;
      now rewrite startswith_app.
  - cbn [app contains]. rewrite IH. apply orb_true_r.
Qed.

(** Every text captured while reading a pattern is a part of what was
    read. *)
Lemma nodes_read_infix ns p rest caps caps' :
  nodes_read ns p rest caps caps' ->
  forall k v, In (k, v) caps' -> In (k, v) caps \/ exists a b, p = a ++ v ++ b.
Proof.
  induction 1 as [rest caps|i ns p1 p2 rest caps caps' Hi Hn IH
                 |n body0 ns p1 p2 rest caps caps' Hb Hn IH
                 |n body0 ns p1 p2 rest caps caps' Hb Hn IH
                 |n body0 ns p rest caps caps' Hn IH]; intros k v Hin.
  - now left.
  - destruct (IH k v Hin) as [H|(a & b & ->)]; [now left|].
    right. exists (p1 ++ a), b. now rewrite <- app_assoc.
  - destruct (IH k v Hin) as [[H|H]|(a & b & ->)].
    + injection H as <- <-. right. exists [], p2. reflexivity.
    + now left.
    + right. exists (p1 ++ a), b. now rewrite <- app_assoc.
  - destruct (IH k v Hin) as [[H|H]|(a & b & ->)].
    + injection H as <- <-. right. exists [], p2. reflexivity.
    + now left.
    + right. exists (p1 ++ a), b. now rewrite <- app_assoc.
  - now apply IH.
Qed.

(** X12.  Whatever the source template, every captured text is a part of
    the path: nothing reaches the URL through a capture that the client did
    not send. *)
Theorem captures_from_path src path0 caps k v :
  re_search (pattern src) path0 = Val (Some caps) ->
  lookup k caps = Some v ->
  contains v path0 = true.
Proof.
  intros Hs Hk.
  apply re_search_some in Hs as (ns & Hc & Hsearch).
  apply search_some in Hsearch as (pre & t & -> & Hm & _).
  apply match_here_some in Hm as (s' & Hrun).
  apply nodes_runs_spec in Hrun as (p & -> & Hrd).
  apply lookup_some_pair in Hk.
  destruct (nodes_read_infix _ _ _ _ _ Hrd k v Hk) as [[]|(a & b & ->)].
  replace (pre ++ (a ++ v ++ b) ++ s') with ((pre ++ a) ++ v ++ (b ++ s'))
    by (now rewrite <- !app_assoc).
  apply contains_infix.
Qed.

Lemma captures_from_path_witness :
  contains "1.2.3.4" "/ws/api/1.2.3.4/17070/uuid" = true.
Proof.
  apply (captures_from_path doc_source "/ws/api/1.2.3.4/17070/uuid"
           [(list_ascii_of_string "uuid", list_ascii_of_string "uuid");
            (list_ascii_of_string "port", list_ascii_of_string "17070");
            (list_ascii_of_string "server", list_ascii_of_string "1.2.3.4")]
           "server" "1.2.3.4");
    vm_compute; reflexivity.
Defined.

(** X13.  With a plain source template and a target made of brace-free
    text and of fields that all name placeholders of the source, the call
    never raises: it returns the default, or the target with its fields
    replaced by the captures of the match. *)
Theorem get_juju_api_url_returns ps tps path0 d :
  plain_template ps = true ->
  forallb fpiece_ok tps = true ->
  fields_in_template ps tps = true ->
  get_juju_api_url path0 (template_of ps) (target_of tps) d = Val d
  \/ exists caps,
       re_search (pattern (template_of ps)) path0 = Val (Some caps)
       /\ get_juju_api_url path0 (template_of ps) (target_of tps) d
          = Val (flat_map (fpiece_out caps) tps).
Proof.
  intros Hp Hok Hf. pose proof (re_compile_template _ Hp) as Hc.
  unfold get_juju_api_url, re_search. rewrite Hc. cbn [bind].
  destruct (search (nodes_of ps) path0) as [caps|] eqn:Es; [right|now left].
  exists caps. split; [reflexivity|].
  apply format_target; [now apply search_caps_keys with (s := path0)|assumption|].
  apply search_some in Es as (pre & t & _ & Hm & _).
  apply match_here_some in Hm as (s' & Hrun).
  apply nodes_runs_spec in Hrun as (p & _ & Hrd).
  apply nodes_read_caps in Hrd as (new & -> & Hnew);
    [|apply nodes_of_no_optional]. rewrite app_nil_r.
  unfold fields_captured, fields_in_template in *.
  rewrite forallb_forall in *. intros x Hx. specialize (Hf x Hx).
  destruct x as [c|n]; [reflexivity|].
  apply existsb_exists in Hf as (m & Hm & E). apply str_eqb_eq in E. subst m.
  unfold captured. destruct (lookup_in_keys n new) as (v & ->); [|reflexivity].
  rewrite Hnew. now apply in_rev in Hm.
Qed.

Lemma get_juju_api_url_returns_witness :
  get_juju_api_url "/legacy" (template_of doc_pieces)
    (target_of [FField "server"; FText ":"; FField "port"]) "none"
  = Val (list_ascii_of_string "none")
  \/ exists caps,
       re_search (pattern (template_of doc_pieces)) "/legacy" = Val (Some caps)
       /\ get_juju_api_url "/legacy" (template_of doc_pieces)
            (target_of [FField "server"; FText ":"; FField "port"]) "none"
          = Val (flat_map (fpiece_out caps) [FField "server"; FText ":"; FField "port"]).
Proof.
  apply (get_juju_api_url_returns doc_pieces [FField "server"; FText ":"; FField "port"]);
    reflexivity.
Defined.

Lemma format_escaped kw : forall s, format_from None kw (escape_braces s) = Val s.
Proof.
  induction s as [|c s IH]; [reflexivity|].
  unfold escape_braces in *. cbn [flat_map].
  destruct (is_brace c) eqn:E.
  - unfold is_brace in E. apply orb_prop in E as [E|E]; apply Ascii.eqb_eq in E; subst c.
    + change (format_from None kw (["{"; "{"]%char ++ flat_map (fun c => if is_brace c then [c; c] else [c]) s))
        with (rmap (cons "{"%char)
                (format_from None kw (flat_map (fun c => if is_brace c then [c; c] else [c]) s))).
      now rewrite IH.
    + change (format_from None kw (["}"; "}"]%char ++ flat_map (fun c => if is_brace c then [c; c] else [c]) s))
        with (rmap (cons "}"%char)
                (format_from None kw (flat_map (fun c => if is_brace c then [c; c] else [c]) s))).
      now rewrite IH.
  - cbn [app]. rewrite format_text by assumption. now rewrite IH.
Qed.

(** X14.  Braces written twice in the target template stand for
    themselves: on a matching path a target with every brace doubled comes
    back with single braces, whatever was captured. *)
Theorem get_juju_api_url_escaped_target src path0 caps s d :
  re_search (pattern src) path0 = Val (Some caps) ->
  get_juju_api_url path0 src (escape_braces s) d = Val s.
Proof.
  intros Hs.
  destruct (get_juju_api_url_match _ _ (escape_braces s) d _ Hs) as (ns & _ & _ & ->).
  apply format_escaped.
Qed.

Lemma get_juju_api_url_escaped_target_witness :
  get_juju_api_url "/api/h/1/u" doc_source (escape_braces "wss://{server}/") "none"
  = Val (list_ascii_of_string "wss://{server}/").
Proof.
  apply (get_juju_api_url_escaped_target doc_source "/api/h/1/u"
           [(list_ascii_of_string "uuid", list_ascii_of_string "u");
            (list_ascii_of_string "port", list_ascii_of_string "1");
            (list_ascii_of_string "server", list_ascii_of_string "h")]).
  vm_compute. reflexivity.
Defined.

Lemma format_text_run kw text rest :
  forallb (fun c => negb (is_brace c)) text = true ->
  format_from None kw (text ++ rest) = rmap (app text) (format_from None kw rest).
Proof.
  induction text as [|c text IH]; intros H.
  - cbn [app]. destruct (format_from None kw rest); reflexivity.
  - cbn [forallb] in H. apply andb_prop in H as [Hc H]. apply negb_true_iff in Hc.
    cbn [app]. rewrite format_text, IH by assumption.
    destruct (format_from None kw rest); reflexivity.
Qed.

(** X15.  A lone brace in the target template is only found out on a
    matching path: the call then raises [ValueError], for an opening brace
    that ends the template as for a closing brace that is not doubled. *)
Theorem get_juju_api_url_lone_brace src path0 caps text rest d :
  re_search (pattern src) path0 = Val (Some caps) ->
  forallb (fun c => negb (is_brace c)) text = true ->
  match rest with [] => true | c :: _ => negb (Ascii.eqb c "}") end = true ->
  get_juju_api_url path0 src (text ++ ["{"%char]) d = Raised ValueError
  /\ get_juju_api_url path0 src (text ++ "}"%char :: rest) d = Raised ValueError.
Proof.
  intros Hs Ht Hr.
  destruct (get_juju_api_url_match _ _ (text ++ ["{"%char]) d _ Hs) as (ns & Hc & Hm & ->).
  rewrite (get_juju_api_url_unfold _ _ _ _ _ Hc), Hm. unfold format.
  rewrite !format_text_run by assumption. split; [reflexivity|].
  destruct rest as [|c rest]; [reflexivity|].
  apply negb_true_iff in Hr. cbn [format_from]. change (Ascii.eqb "}" "{") with false.
  rewrite Ascii.eqb_refl, Hr. reflexivity.
Qed.

Lemma get_juju_api_url_lone_brace_witness :
  get_juju_api_url "/api/h/1/u" doc_source
    (list_ascii_of_string "wss://host/" ++ ["{"%char]) "none"
  = Raised ValueError.
Proof.
  apply (get_juju_api_url_lone_brace doc_source "/api/h/1/u"
           [(list_ascii_of_string "uuid", list_ascii_of_string "u");
            (list_ascii_of_string "port", list_ascii_of_string "1");
            (list_ascii_of_string "server", list_ascii_of_string "h")]
           "wss://host/" [] "none");
    vm_compute; reflexivity.
Defined.
